(** * restate-sdk-go: the invocation state machine and its deterministic PRNG

    A shallow embedding of package [state] ([internal/state/state.go] and
    [internal/state/call.go]) and of package [rand], and the properties of the
    specification that were checked against it. Packages [wire], [futures],
    [errors] and [restate] are used by these files but are not part of the
    sources: what is taken from them is either a parameter or a definition
    that follows the specification, and says so.

    Conventions.
    - Go's [uint32] and [uint64] are [Z] with the wrap-around written out.
    - A byte is a [Z] below 256 and a [[]byte] a [list Z].
    - Go maps are stdpp [gmap]s.
    - A Go function that mutates the machine and may panic is a function
      [Machine -> Res A * Machine]: a panic keeps the mutations made so far. *)

From Stdlib Require Import ZArith QArith Lia.
From stdpp Require Import base option list strings gmap.

Local Open Scope Z_scope.

(* ===================================================================== *)
(** * Part I: [internal/rand] *)
(* ===================================================================== *)

Module Rand.

(** [uint64] arithmetic. *)
Definition u64 (x : Z) : Z := x mod 2 ^ 64.
Definition add64 (a b : Z) : Z := u64 (a + b).
Definition shl64 (x k : Z) : Z := u64 (Z.shiftl x k).
Definition shr64 (x k : Z) : Z := Z.shiftr x k.
Definition sub64 (a b : Z) : Z := u64 (a - b).

(** [func rotl(x uint64, k uint64) uint64 { return (x << k) | (x >> (64 - k)) }] *)
Definition rotl (x k : Z) : Z := Z.lor (shl64 x k) (shr64 x (sub64 64 k)).

(** [type Source struct { state [4]uint64 }] *)
Record Source : Type := mkSource { st0 : Z; st1 : Z; st2 : Z; st3 : Z }.

(** [s.state[i]] and [s.state[i] = v] for the four indexes of the array. *)
Definition state (s : Source) (i : nat) : Z :=
  match i with
  | 0%nat => st0 s | 1%nat => st1 s | 2%nat => st2 s | _ => st3 s
  end.

Definition set_state (i : nat) (v : Z) (s : Source) : Source :=
  match i with
  | 0%nat => mkSource v (st1 s) (st2 s) (st3 s)
  | 1%nat => mkSource (st0 s) v (st2 s) (st3 s)
  | 2%nat => mkSource (st0 s) (st1 s) v (st3 s)
  | _ => mkSource (st0 s) (st1 s) (st2 s) v
  end.

(** [s.state[i] ^= s.state[j]] *)
Definition xor_into (i j : nat) (s : Source) : Source :=
  set_state i (Z.lxor (state s i) (state s j)) s.

(** [func (s *Source) Uint64() uint64]: the value returned and the source
    after the call. *)
Definition Uint64 (s : Source) : Z * Source :=
  let result := add64 (rotl (add64 (state s 0) (state s 3)) 23) (state s 0) in
  let t := shl64 (state s 1) 17 in
  let s := xor_into 2 0 s in
  let s := xor_into 3 1 s in
  let s := xor_into 1 2 s in
  let s := xor_into 0 3 s in
  let s := set_state 2 (Z.lxor (state s 2) t) s in
  let s := set_state 3 (rotl (state s 3) 45) s in
  (result, s).

(** [binary.LittleEndian.Uint64(b)]: the first eight bytes of [b], least
    significant first. *)
Fixpoint le_combine (b : list Z) : Z :=
  match b with
  | [] => 0
  | x :: b' => Z.lor x (Z.shiftl (le_combine b') 8)
  end.

Definition LittleEndian_Uint64 (b : list Z) : Z := le_combine (take 8 b).

(** [byte(v >> (8*i))] *)
Definition byte_at (v : Z) (i : nat) : Z :=
  Z.land (Z.shiftr v (8 * Z.of_nat i)) 255.

(** [binary.LittleEndian.PutUint64(b[off:], v)]: writes eight bytes of the
    array [b] in place, starting at [off]. *)
Definition LittleEndian_PutUint64 (off : nat) (v : Z) (b : list Z) : list Z :=
  foldl (fun b i => <[(off + i)%nat := byte_at v i]> b) b (seq 0 8).

(** [func (r *Rand) UUID() uuid.UUID] *)
Definition UUID (s : Source) : list Z * Source :=
  let uuid := replicate 16 0 in
  let '(a, s) := Uint64 s in
  let uuid := LittleEndian_PutUint64 0 a uuid in
  let '(b, s) := Uint64 s in
  let uuid := LittleEndian_PutUint64 8 b uuid in
  let uuid := <[6%nat := Z.lor (Z.land (uuid !!! 6%nat) 0x0f) 0x40]> uuid in
  let uuid := <[8%nat := Z.lor (Z.land (uuid !!! 8%nat) 0x3f) 0x80]> uuid in
  (uuid, s).

(** [n] successive calls of [Uint64]: the values, in order, and the source
    left behind. *)
Fixpoint draws (n : nat) (s : Source) : list Z * Source :=
  match n with
  | O => ([], s)
  | S n' =>
      let '(x, s') := Uint64 s in
      let '(xs, s'') := draws n' s' in
      (x :: xs, s'')
  end.

(** The four words of a source are 64-bit words. *)
Definition in_range (s : Source) : Prop :=
  (0 <= st0 s < 2 ^ 64) /\ (0 <= st1 s < 2 ^ 64) /\
  (0 <= st2 s < 2 ^ 64) /\ (0 <= st3 s < 2 ^ 64).

(** The number a sequence of bytes denotes, least significant byte first. *)
Fixpoint le_word (b : list Z) : Z :=
  match b with
  | [] => 0
  | x :: b' => x + 256 * le_word b'
  end.

Definition is_byte (x : Z) : Prop := 0 <= x < 256.

Section Seeding.

(** [crypto/sha256] belongs to Go's standard library: the digest is a
    parameter of the development. *)
Variable sha256_Sum : list Z -> list Z.

(** [func newSource(invocationID []byte) *Source] *)
Definition newSource (invocationID : list Z) : Source :=
  let sum := sha256_Sum invocationID in
  mkSource (LittleEndian_Uint64 (take 8 sum))
           (LittleEndian_Uint64 (take 8 (drop 8 sum)))
           (LittleEndian_Uint64 (take 8 (drop 16 sum)))
           (LittleEndian_Uint64 (take 8 (drop 24 sum))).

End Seeding.

(** [int64(x)] of a [uint64]: the same 64 bits read in two's complement. *)
Definition int64 (x : Z) : Z := if x <? 2 ^ 63 then x else x - 2 ^ 64.

(** [func (s *Source) Int63() int64] *)
Definition Int63 (s : Source) : Z * Source :=
  let '(x, s) := Uint64 s in
  (int64 (Z.land x (2 ^ 63 - 1)), s).

(** [r.Uint64()<<11>>11], the integer [Float64] converts. *)
Definition Float64_bits (x : Z) : Z := shr64 (shl64 x 11) 11.

(** [func (r *Rand) Float64() float64]. The integer converted is below
    [2^53], so the conversion to [float64] is exact, and so is the division
    by the power of two [1 << 53]: the result is the rational number
    [Float64_bits x / 2^53]. *)
Definition Float64 (s : Source) : Q * Source :=
  let '(x, s) := Uint64 s in
  (Qmake (Float64_bits x) (2 ^ 53), s).

End Rand.


(* ===================================================================== *)
(** * Part II: [internal/state] *)
(* ===================================================================== *)

Module State.

Definition u32 (x : Z) : Z := x mod 2 ^ 32.
Definition u64 (x : Z) : Z := x mod 2 ^ 64.

Abbreviation bytes := (list Z) (only parsing).

(** ** Errors *)

(** Modelled from the spec: Go's [error] values and the helpers of package
    [restate] that inspect them ([restate.ErrorCode], [restate.IsTerminalError])
    are not in the sources. An error carries its text, its code, whether it
    is marked terminal (section 6: the handler's error "may be marked
    terminal") and whether [errors.Is(err, io.EOF)] holds of it. *)
Record error : Type := mkError {
  Error : string;
  ErrorCode : Z;
  IsTerminalError : bool;
  Is_io_EOF : bool
}.

#[global] Instance error_eq_dec : EqDecision error.
Proof. solve_decision. Defined.

Definition io_EOF : error := mkError "EOF" 500 false true.

(** ** Wire messages (package [wire], section 6 of the specification) *)

(** Modelled from the spec: the message types of package [wire], as section 6
    enumerates them. *)
Inductive MessageType : Type :=
  | StartMessageType | CompletionMessageType | EntryAckMessageType
  | InputEntryMessageType | OutputEntryMessageType
  | GetStateEntryMessageType | SetStateEntryMessageType
  | ClearStateEntryMessageType | ClearAllStateEntryMessageType
  | GetStateKeysEntryMessageType | SleepEntryMessageType
  | CallEntryMessageType | OneWayCallEntryMessageType
  | AwakeableEntryMessageType | CompleteAwakeableEntryMessageType
  | SideEffectEntryMessageType
  | SuspensionMessageType | ErrorMessageType | EndMessageType.

#[global] Instance MessageType_eq_dec : EqDecision MessageType.
Proof. solve_decision. Defined.

(** [protocol.Failure] *)
Record Failure : Type := mkFailure { Failure_Code : Z; Failure_Message : string }.

#[global] Instance Failure_eq_dec : EqDecision Failure.
Proof. solve_decision. Defined.

(** The result slot of a completable entry, of an output and of a completion:
    a value or a failure. *)
Inductive Result : Type :=
  | Result_Value (value : bytes)
  | Result_Failure (failure : Failure).

#[global] Instance Result_eq_dec : EqDecision Result.
Proof. solve_decision. Defined.

(** [protocol.StartMessage] *)
Record StartMessage : Type := mkStart {
  Start_Id : bytes;
  Start_DebugId : string;
  Start_KnownEntries : Z;
  Start_StateMap : list (bytes * bytes);
  Start_PartialState : bool;
  Start_Key : string
}.

(** [protocol.CallEntryMessage] *)
Record CallEntryMessage : Type := mkCall {
  Call_ServiceName : string;
  Call_HandlerName : string;
  Call_Parameter : bytes;
  Call_Key : string;
  Call_Result : option Result
}.

(** [protocol.OneWayCallEntryMessage] *)
Record OneWayCallEntryMessage : Type := mkOneWayCall {
  OneWay_ServiceName : string;
  OneWay_HandlerName : string;
  OneWay_Parameter : bytes;
  OneWay_InvokeTime : Z;
  OneWay_Key : string
}.

(** The text of an [ErrorMessage]: [fmt.Sprintf] and [runtime/debug.Stack]
    are kept symbolic. *)
Inductive Description : Type := no_description | debug_Stack.

(** [protocol.ErrorMessage] *)
Record ErrorMessage : Type := mkErrorMessage {
  Err_Code : Z;
  Err_Message : string;
  Err_Description : Description;
  Err_RelatedEntryIndex : option Z;
  Err_RelatedEntryType : option MessageType
}.

(** Modelled from the spec: [wire.Message], one constructor per message type.
    [Start], [Call], [OneWayCall], [Output], [Suspension], [Error] and [End]
    have the fields the sources read or write; the other entries have the
    payload section 3 gives them. *)
Inductive Message : Type :=
  | Start_ (start : StartMessage)
  | Completion_ (EntryIndex : Z) (result : option Result)
  | EntryAck_ (EntryIndex : Z)
  | InputEntry_ (value : bytes)
  | OutputEntry_ (result : Result)
  | GetStateEntry_ (key : bytes) (result : option (option bytes))
  | SetStateEntry_ (key value : bytes)
  | ClearStateEntry_ (key : bytes)
  | ClearAllStateEntry_
  | GetStateKeysEntry_ (result : option (list bytes))
  | SleepEntry_ (WakeUpTime : Z) (result : option Result)
  | CallEntry_ (call : CallEntryMessage)
  | OneWayCallEntry_ (call : OneWayCallEntryMessage)
  | AwakeableEntry_ (result : option Result)
  | CompleteAwakeableEntry_ (id : string) (result : Result)
  | SideEffectEntry_ (result : Result)
  | Suspension_ (EntryIndexes : list Z)
  | Error_ (e : ErrorMessage)
  | End_.

(** [wire.MessageType(msg)] *)
Definition MessageType_of (msg : Message) : MessageType :=
  match msg with
  | Start_ _ => StartMessageType
  | Completion_ _ _ => CompletionMessageType
  | EntryAck_ _ => EntryAckMessageType
  | InputEntry_ _ => InputEntryMessageType
  | OutputEntry_ _ => OutputEntryMessageType
  | GetStateEntry_ _ _ => GetStateEntryMessageType
  | SetStateEntry_ _ _ => SetStateEntryMessageType
  | ClearStateEntry_ _ => ClearStateEntryMessageType
  | ClearAllStateEntry_ => ClearAllStateEntryMessageType
  | GetStateKeysEntry_ _ => GetStateKeysEntryMessageType
  | SleepEntry_ _ _ => SleepEntryMessageType
  | CallEntry_ _ => CallEntryMessageType
  | OneWayCallEntry_ _ => OneWayCallEntryMessageType
  | AwakeableEntry_ _ => AwakeableEntryMessageType
  | CompleteAwakeableEntry_ _ _ => CompleteAwakeableEntryMessageType
  | SideEffectEntry_ _ => SideEffectEntryMessageType
  | Suspension_ _ => SuspensionMessageType
  | Error_ _ => ErrorMessageType
  | End_ => EndMessageType
  end.

(** A value of the interface [wire.Message]: a pointer to a message, or the
    nil pointer of a message type ([var expectedEntry M] in [replayOrNew]).
    [IMessage_type] is [wire.MessageType] on such a value: the message type
    of its dynamic type. *)
Inductive IMessage : Type :=
  | TypedNil (t : MessageType)
  | Ptr (msg : Message).

Definition IMessage_type (i : IMessage) : MessageType :=
  match i with TypedNil t => t | Ptr msg => MessageType_of msg end.

(** The type parameter [M wire.Message] of [replayOrNew]: a message type,
    with the type assertion [entry.(M)]. *)
Class EntryMessage (M : Type) : Type := {
  entry_type : MessageType;
  to_Message : M -> Message;
  type_assert : Message -> option M;
  type_assert_Some : forall msg x,
    type_assert msg = Some x <-> msg = to_Message x;
  type_assert_type : forall msg,
    is_Some (type_assert msg) <-> MessageType_of msg = entry_type
}.
Arguments entry_type M {_}.

#[global, refine] Instance CallEntryMessage_entry : EntryMessage CallEntryMessage := {|
  entry_type := CallEntryMessageType;
  to_Message := CallEntry_;
  type_assert msg := match msg with CallEntry_ c => Some c | _ => None end
|}.
Proof.
  - intros msg x; destruct msg; split; intros H; inversion H; reflexivity.
  - intros msg; destruct msg; split; intros H; try discriminate H;
      try (inversion H; discriminate); eauto.
Defined.

#[global, refine] Instance OneWayCallEntryMessage_entry :
  EntryMessage OneWayCallEntryMessage := {|
  entry_type := OneWayCallEntryMessageType;
  to_Message := OneWayCallEntry_;
  type_assert msg := match msg with OneWayCallEntry_ c => Some c | _ => None end
|}.
Proof.
  - intros msg x; destruct msg; split; intros H; inversion H; reflexivity.
  - intros msg; destruct msg; split; intros H; try discriminate H;
      try (inversion H; discriminate); eauto.
Defined.

(** ** The transport (package [wire], section 4.A) *)

(** Modelled from the spec: [wire.Protocol] is not in the sources. Section 4.A:
    a read yields the next typed message, or fails with end-of-stream on a
    clean close and with an I/O error otherwise; a write serializes and
    flushes one message, or fails on a transport error. [incoming] holds the
    frames the runtime still has to deliver and [read_end] what [Read] returns
    after them; [written] holds the frames written so far, and [fault k] is
    the transport error, if any, met by a write that follows [k] written
    frames. *)
Record Protocol : Type := mkProtocol {
  incoming : list Message;
  read_end : error;
  written : list Message;
  fault : nat -> option error
}.

Definition Protocol_Read (p : Protocol) : (Message + error) * Protocol :=
  match incoming p with
  | msg :: rest => (inl msg, mkProtocol rest (read_end p) (written p) (fault p))
  | [] => (inr (read_end p), p)
  end.

Definition Protocol_Write (msg : Message) (p : Protocol) : option error * Protocol :=
  match fault p (length (written p)) with
  | Some err => (Some err, p)
  | None => (None, mkProtocol (incoming p) (read_end p) (written p ++ [msg]) (fault p))
  end.

(** Modelled from the spec: [wire.ErrUnexpectedMessage] (section 4.A,
    [UnexpectedMessage]). *)
Definition ErrUnexpectedMessage : error := mkError "unexpected message" 500 false false.

(** ** Panic values *)

(** What [invoke] recovers: [*entryMismatch], [*writeError],
    [*sideEffectFailure], [*wire.SuspensionPanic], with the fields [invoke]
    reads from them, and any other value. *)
Inductive any : Type :=
  | entryMismatch (entryIndex : Z) (expectedEntry actualEntry : IMessage)
  | writeError (entryIndex : Z) (entry : Message) (err : error)
  | sideEffectFailure (entryIndex : Z) (err : error)
  | SuspensionPanic (EntryIndexes : list Z) (Err : error)
  | other_panic (text : string).

(** ** The machine *)

(** [type Machine struct]. [ctx] is [m.ctx.Err()]: the cause once the outer
    context is cancelled; [suspensionCtx] likewise holds the cause once
    [m.suspend] was called. The handler is passed to the functions that call
    it; mutexes and the logger are left out. [delivered] stands for the result
    slots of the entry messages that the futures and the pending map share:
    what the completion router has delivered, by entry index. *)
Record Machine : Type := mkMachine {
  ctx : option error;
  suspensionCtx : option error;
  protocol : Protocol;
  id_ : bytes;
  key_ : string;
  partial : bool;
  current : gmap (list Z) (list Z);
  entries : list Message;
  entryIndex : Z;
  pendingCompletions : gmap Z Message;
  pendingAcks : gmap Z Message;
  delivered : gmap Z (option Result);
  failure : option any
}.

Definition set_ctx (v : option error) (m : Machine) : Machine :=
  mkMachine v (suspensionCtx m) (protocol m) (id_ m) (key_ m) (partial m)
    (current m) (entries m) (entryIndex m) (pendingCompletions m)
    (pendingAcks m) (delivered m) (failure m).
Definition set_suspensionCtx (v : option error) (m : Machine) : Machine :=
  mkMachine (ctx m) v (protocol m) (id_ m) (key_ m) (partial m) (current m)
    (entries m) (entryIndex m) (pendingCompletions m) (pendingAcks m)
    (delivered m) (failure m).
Definition set_protocol (v : Protocol) (m : Machine) : Machine :=
  mkMachine (ctx m) (suspensionCtx m) v (id_ m) (key_ m) (partial m)
    (current m) (entries m) (entryIndex m) (pendingCompletions m)
    (pendingAcks m) (delivered m) (failure m).
Definition set_id (v : bytes) (m : Machine) : Machine :=
  mkMachine (ctx m) (suspensionCtx m) (protocol m) v (key_ m) (partial m)
    (current m) (entries m) (entryIndex m) (pendingCompletions m)
    (pendingAcks m) (delivered m) (failure m).
Definition set_key (v : string) (m : Machine) : Machine :=
  mkMachine (ctx m) (suspensionCtx m) (protocol m) (id_ m) v (partial m)
    (current m) (entries m) (entryIndex m) (pendingCompletions m)
    (pendingAcks m) (delivered m) (failure m).
Definition set_partial (v : bool) (m : Machine) : Machine :=
  mkMachine (ctx m) (suspensionCtx m) (protocol m) (id_ m) (key_ m) v
    (current m) (entries m) (entryIndex m) (pendingCompletions m)
    (pendingAcks m) (delivered m) (failure m).
Definition set_current (v : gmap (list Z) (list Z)) (m : Machine) : Machine :=
  mkMachine (ctx m) (suspensionCtx m) (protocol m) (id_ m) (key_ m)
    (partial m) v (entries m) (entryIndex m) (pendingCompletions m)
    (pendingAcks m) (delivered m) (failure m).
Definition set_entries (v : list Message) (m : Machine) : Machine :=
  mkMachine (ctx m) (suspensionCtx m) (protocol m) (id_ m) (key_ m)
    (partial m) (current m) v (entryIndex m) (pendingCompletions m)
    (pendingAcks m) (delivered m) (failure m).
Definition set_entryIndex (v : Z) (m : Machine) : Machine :=
  mkMachine (ctx m) (suspensionCtx m) (protocol m) (id_ m) (key_ m)
    (partial m) (current m) (entries m) v (pendingCompletions m)
    (pendingAcks m) (delivered m) (failure m).
Definition set_pendingCompletions (v : gmap Z Message) (m : Machine) : Machine :=
  mkMachine (ctx m) (suspensionCtx m) (protocol m) (id_ m) (key_ m)
    (partial m) (current m) (entries m) (entryIndex m) v (pendingAcks m)
    (delivered m) (failure m).
Definition set_pendingAcks (v : gmap Z Message) (m : Machine) : Machine :=
  mkMachine (ctx m) (suspensionCtx m) (protocol m) (id_ m) (key_ m)
    (partial m) (current m) (entries m) (entryIndex m) (pendingCompletions m)
    v (delivered m) (failure m).
Definition set_delivered (v : gmap Z (option Result)) (m : Machine) : Machine :=
  mkMachine (ctx m) (suspensionCtx m) (protocol m) (id_ m) (key_ m)
    (partial m) (current m) (entries m) (entryIndex m) (pendingCompletions m)
    (pendingAcks m) v (failure m).
Definition set_failure (v : option any) (m : Machine) : Machine :=
  mkMachine (ctx m) (suspensionCtx m) (protocol m) (id_ m) (key_ m)
    (partial m) (current m) (entries m) (entryIndex m) (pendingCompletions m)
    (pendingAcks m) (delivered m) v.

(** [func NewMachine(handler restate.Handler, conn io.ReadWriter) *Machine]:
    every field that is not listed has Go's zero value. *)
Definition NewMachine (conn : Protocol) : Machine :=
  mkMachine None None conn [] "" false ∅ [] 0 ∅ ∅ ∅ None.

(** ** Operations on the machine: state and panics *)

Inductive Res (A : Type) : Type :=
  | Ret (a : A)
  | Panic (p : any).
Arguments Ret {A} a.
Arguments Panic {A} p.

Definition Op (A : Type) : Type := Machine -> Res A * Machine.

Definition ret {A} (a : A) : Op A := fun m => (Ret a, m).
Definition panic {A} (p : any) : Op A := fun m => (Panic p, m).
Definition bind {A B} (c : Op A) (k : A -> Op B) : Op B :=
  fun m =>
    match c m with
    | (Ret a, m') => k a m'
    | (Panic p, m') => (Panic p, m')
    end.

Declare Scope op_scope.
Delimit Scope op_scope with op.
Notation "x <- c ;; k" := (bind c (fun x => k))
  (at level 100, c at next level, right associativity) : op_scope.
Notation "c ;;; k" := (bind c (fun _ => k))
  (at level 100, right associativity) : op_scope.
Local Open Scope op_scope.

(** [defer func() { recover() ... }()] around an operation: the panic, if any,
    is handed back as a value and the machine keeps what was done. *)
Definition recover {A} (c : Op A) : Op (Res A) :=
  fun m => let '(r, m') := c m in (Ret r, m').

(** [m.protocol.Write(msg)] *)
Definition protocol_Write (msg : Message) : Op (option error) :=
  fun m =>
    let '(err, p) := Protocol_Write msg (protocol m) in
    (Ret err, set_protocol p m).

(** Modelled from the spec: [Machine.newEntryMismatch] is not in the
    sources. Section 4.F, sticky failure: a failure that escapes a
    replay-or-new call is stored in the machine; the value built carries the
    index of the current entry, the expected and the actual entry, which are
    the fields [invoke] reads. *)
Definition newEntryMismatch (expectedEntry actualEntry : IMessage)
  : Machine -> any * Machine :=
  fun m =>
    let e := entryMismatch (entryIndex m) expectedEntry actualEntry in
    (e, set_failure (Some e) m).

(** Modelled from the spec: whether a new entry waits for a completion
    (section 3, entry status). *)
Definition completable (msg : Message) : bool :=
  match msg with
  | GetStateEntry_ _ None | GetStateKeysEntry_ None | SleepEntry_ _ None
  | AwakeableEntry_ None => true
  | CallEntry_ c => match Call_Result c with None => true | Some _ => false end
  | _ => false
  end.

(** Modelled from the spec: whether a new entry waits for an acknowledgement
    (section 4.B: one-way calls and side effects). *)
Definition ackable (msg : Message) : bool :=
  match msg with
  | OneWayCallEntry_ _ | SideEffectEntry_ _ => true
  | _ => false
  end.

(** Modelled from the spec: [Machine.Write] is not in the sources.
    Sections 4.C and 4.F: a new entry is written as one frame and its future
    is registered with the completion router under the entry's index; when
    the frame cannot be written the operation fails with a write error that
    names the entry and its index, and the failure is stored. *)
Definition Machine_Write (msg : Message) : Op unit :=
  fun m =>
    match Protocol_Write msg (protocol m) with
    | (Some err, p) =>
        let e := writeError (entryIndex m) msg err in
        (Panic e, set_failure (Some e) (set_protocol p m))
    | (None, p) =>
        let m := set_protocol p m in
        let m :=
          if completable msg
          then set_pendingCompletions (<[entryIndex m := msg]> (pendingCompletions m)) m
          else if ackable msg
          then set_pendingAcks (<[entryIndex m := msg]> (pendingAcks m)) m
          else m in
        (Ret tt, m)
    end.

(** ** The journal *)

(** [func (c *Machine) currentEntry() (wire.Message, bool)]. The index
    expression [c.entries[c.entryIndex-1]] is computed on [uint32] and panics
    when it is out of range. *)
Definition currentEntry : Op (option Message) :=
  fun c =>
    if entryIndex c <=? u32 (Z.of_nat (length (entries c))) then
      match entries c !! Z.to_nat (u32 (entryIndex c - 1)) with
      | Some entry => (Ret (Some entry), c)
      | None => (Panic (other_panic "runtime error: index out of range"), c)
      end
    else (Ret None, c).

(** [func replayOrNew[M wire.Message, O any](m *Machine, replay func(msg M) O,
    new func() O) (output O, entryIndex uint32)]. The mutex is not modelled:
    the machine is used by one operation at a time.

    In [if entry, ok := entry.(M); !ok { ... }] the variable [entry] declared
    by the assertion is in scope in both branches and hides the entry that
    [currentEntry] returned: where the assertion fails it holds the zero value
    of [M], the nil pointer of that type, and this is the value the source
    passes to [newEntryMismatch] as the actual entry. *)
Definition replayOrNew {M : Type} `{EntryMessage M} {O : Type}
    (replay : M -> Op O) (new : Op O) : Op (O * Z) :=
  fun m =>
    match failure m with
    | Some f => (Panic f, m)
    | None =>
        let m := set_entryIndex (u32 (entryIndex m + 1)) m in
        match currentEntry m with
        | (Panic p, m) => (Panic p, m)
        | (Ret (Some entry), m) =>
            match type_assert entry with
            | None =>
                let expectedEntry := TypedNil (entry_type M) in
                let entry := TypedNil (entry_type M) in
                let '(e, m) := newEntryMismatch expectedEntry entry m in
                (Panic e, m)
            | Some entry =>
                match replay entry m with
                | (Ret o, m) => (Ret (o, entryIndex m), m)
                | (Panic p, m) => (Panic p, m)
                end
            end
        | (Ret None, m) =>
            match new m with
            | (Ret o, m) => (Ret (o, entryIndex m), m)
            | (Panic p, m) => (Panic p, m)
            end
        end
    end.

(** ** Calls ([call.go]) *)

Definition bytes_Equal (a b : bytes) : bool := bool_decide (a = b).

(** [func (m *Machine) _doCall(service, key, method string, params []byte)] *)
Definition _doCall (service key method : string) (params : bytes)
  : Op CallEntryMessage :=
  let msg := mkCall service method params key None in
  Machine_Write (CallEntry_ msg) ;;; ret msg.

(** [func (m *Machine) doCall(service, key, method string, params []byte)],
    which returns the call entry and its index. *)
Definition doCall (service key method : string) (params : bytes)
  : Op (CallEntryMessage * Z) :=
  replayOrNew
    (fun entry : CallEntryMessage =>
       if negb (String.eqb (Call_ServiceName entry) service)
          || negb (String.eqb (Call_Key entry) key)
          || negb (String.eqb (Call_HandlerName entry) method)
          || negb (bytes_Equal (Call_Parameter entry) params)
       then
         fun m =>
           let '(e, m) :=
             newEntryMismatch (Ptr (CallEntry_ (mkCall service method params key None)))
               (Ptr (CallEntry_ entry)) m in
           (Panic e, m)
       else ret entry)
    (_doCall service key method params).

(** [func (c *Machine) _sendCall(service, key, method string, params []byte,
    delay time.Duration)]. [now] is [time.Now()], in nanoseconds since the
    epoch; [delay] is in nanoseconds. *)
Definition _sendCall (now : Z) (service key method : string) (params : bytes)
    (delay : Z) : Op unit :=
  let invokeTime := if delay =? 0 then 0 else u64 ((now + delay) / 1000000) in
  Machine_Write (OneWayCallEntry_ (mkOneWayCall service method params invokeTime key)).

(** [func (m *Machine) sendCall(service, key, method string, body []byte,
    delay time.Duration)] *)
Definition sendCall (now : Z) (service key method : string) (body : bytes)
    (delay : Z) : Op unit :=
  replayOrNew
    (fun entry : OneWayCallEntryMessage =>
       if negb (String.eqb (OneWay_ServiceName entry) service)
          || negb (String.eqb (OneWay_Key entry) key)
          || negb (String.eqb (OneWay_HandlerName entry) method)
          || negb (bytes_Equal (OneWay_Parameter entry) body)
       then
         fun m =>
           let '(e, m) :=
             newEntryMismatch
               (Ptr (OneWayCallEntry_ (mkOneWayCall service method body 0 key)))
               (Ptr (OneWayCallEntry_ entry)) m in
           (Panic e, m)
       else ret tt)
    (_sendCall now service key method body delay) ;;; ret tt.

(** [type serviceCall struct]; the codec of its options is the [Marshal]
    argument of [RequestFuture]. *)
Record serviceCall : Type := mkServiceCall {
  service : string;
  key : string;
  method : string
}.

(** [futures.ResponseFuture], as [RequestFuture] builds it: the call entry and
    its index. *)
Record ResponseFuture : Type := mkResponseFuture {
  fut_entry : CallEntryMessage;
  fut_entryIndex : Z
}.

(** Modelled from the spec: [errors.NewTerminalError] is not in the sources.
    Section 7: a terminal error is an error marked so that it is not
    retried; [fmt.Errorf(prefix + ": %w", err)] puts the prefix before the
    text of the error it wraps. *)
Definition NewTerminalError (prefix : string) (err : error) : error :=
  mkError (prefix +:+ ": " +:+ Error err) (ErrorCode err) true (Is_io_EOF err).

(** [func (c *serviceCall) RequestFuture(input any) (restate.ResponseFuture,
    error)]. [None] is the input [restate.Void{}]; [Marshal] is
    [encoding.Marshal] with the codec of the call's options. *)
Definition RequestFuture {A : Type} (Marshal : A -> bytes + error)
    (c : serviceCall) (input : option A) : Op (ResponseFuture + error) :=
  match match input with
        | None => inl []
        | Some v => Marshal v
        end with
  | inr err =>
      ret (inr (NewTerminalError "failed to marshal RequestFuture input" err))
  | inl bytes =>
      r <- doCall (service c) (key c) (method c) bytes ;;
      ret (inl (mkResponseFuture (fst r) (snd r)))
  end.

(** ** The completion router and awaiting (sections 4.B and 4.D) *)

(** Modelled from the spec: what the completion router does with one frame.
    Section 4.D: a completion or an acknowledgement is looked up by entry
    index among the pending ones, delivered, and removed from the pending
    map. *)
Definition deliver (msg : Message) (m : Machine) : Machine :=
  match msg with
  | Completion_ idx r =>
      match pendingCompletions m !! idx with
      | Some _ =>
          set_delivered (<[idx := r]> (delivered m))
            (set_pendingCompletions (delete idx (pendingCompletions m)) m)
      | None => m
      end
  | EntryAck_ idx => set_pendingAcks (delete idx (pendingAcks m)) m
  | _ => m
  end.

(** Modelled from the spec: [handleCompletionsAcks] is not in the sources.
    Section 4.D: the router reads the frames that follow the replayed journal
    and, when the stream ends, cancels the suspension context with the cause
    the read returned (end-of-stream on a clean close). The router runs
    concurrently with the handler; here it runs to the end of the stream when
    a future is awaited, which is the moment an await that is not yet served
    stops blocking. *)
Definition handleCompletionsAcks (m : Machine) : Machine :=
  let p := protocol m in
  let m := foldl (fun m msg => deliver msg m) m (incoming p) in
  let m := set_protocol (mkProtocol [] (read_end p) (written p) (fault p)) m in
  match suspensionCtx m with
  | Some _ => m
  | None => set_suspensionCtx (Some (read_end p)) m
  end.

(** Modelled from the spec: [futures.ResponseFuture.Response] is not in the
    sources. Section 4.B: the await blocks until the future is completed, or
    until the suspension context is cancelled, at which point it raises
    [Suspension] carrying the entry index of the future; the result is the
    value, or the failure the runtime supplied. *)
Definition Response (fut : ResponseFuture) : Op (bytes + error) :=
  fun m =>
    let m := handleCompletionsAcks m in
    let result :=
      match Call_Result (fut_entry fut) with
      | Some r => Some r
      | None => mjoin (delivered m !! fut_entryIndex fut)
      end in
    match result, suspensionCtx m with
    | Some (Result_Value v), _ => (Ret (inl v), m)
    | Some (Result_Failure f), _ =>
        (Ret (inr (mkError (Failure_Message f) (Failure_Code f) true false)), m)
    | None, Some cause => (Panic (SuspensionPanic [fut_entryIndex fut] cause), m)
    | None, None => (Panic (other_panic "await on an open stream"), m)
    end.

(** ** The invocation ([state.go]) *)

(** [restate.Handler]: [Call(ctx, input)] returns bytes and an error, may use
    the machine through its context, and may panic. *)
Definition Handler : Type := bytes -> Op (bytes * option error).

(** What the sources take from packages that are not part of them: the two
    error codes of [internal/errors], and the text [fmt] produces for a
    journal mismatch and for an unknown panic value. *)
Record Extern : Type := mkExtern {
  ErrJournalMismatch : Z;
  ErrProtocolViolation : Z;
  Sprintf_mismatch : Z -> IMessage -> IMessage -> string;
  Sprint : any -> string
}.

Section Invocation.

Variable ext : Extern.

(** The deferred function of [invoke], for a recovered value that is not
    nil. *)
Definition recovered (typ : any) : Op (option error) :=
  match typ with
  | entryMismatch entryIndex expectedEntry actualEntry =>
      protocol_Write (Error_ {|
        Err_Code := u32 (ErrJournalMismatch ext);
        Err_Message := Sprintf_mismatch ext entryIndex expectedEntry actualEntry;
        Err_Description := debug_Stack;
        Err_RelatedEntryIndex := Some entryIndex;
        Err_RelatedEntryType := Some (IMessage_type actualEntry) |})
  | writeError entryIndex entry err =>
      protocol_Write (Error_ {|
        Err_Code := u32 (ErrProtocolViolation ext);
        Err_Message := Error err;
        Err_Description := debug_Stack;
        Err_RelatedEntryIndex := Some entryIndex;
        Err_RelatedEntryType := Some (MessageType_of entry) |})
  | sideEffectFailure entryIndex err =>
      protocol_Write (Error_ {|
        Err_Code := u32 (ErrorCode err);
        Err_Message := Error err;
        Err_Description := debug_Stack;
        Err_RelatedEntryIndex := Some entryIndex;
        Err_RelatedEntryType := Some AwakeableEntryMessageType |})
  | SuspensionPanic EntryIndexes Err =>
      fun m =>
        match ctx m with
        | Some _ => (Ret None, m)
        | None =>
            if Is_io_EOF Err
            then protocol_Write (Suspension_ EntryIndexes) m
            else protocol_Write (Error_ {|
                   Err_Code := u32 (ErrorCode Err);
                   Err_Message := "problem reading completions: " +:+ Error Err;
                   Err_Description := debug_Stack;
                   Err_RelatedEntryIndex := None;
                   Err_RelatedEntryType := None |}) m
        end
  | other_panic _ =>
      protocol_Write (Error_ {|
        Err_Code := 500;
        Err_Message := Sprint ext typ;
        Err_Description := debug_Stack;
        Err_RelatedEntryIndex := None;
        Err_RelatedEntryType := None |})
  end.

(** The body of [invoke], below the [defer]. *)
Definition invoke_body (handler : Handler) (input : bytes) (outputSeen : bool)
  : Op (option error) :=
  if outputSeen then protocol_Write End_
  else
    r <- handler input ;;
    let '(bytes, err) := r in
    match err with
    | Some err =>
        if IsTerminalError err then
          e <- protocol_Write (OutputEntry_ (Result_Failure
                 (mkFailure (u32 (ErrorCode err)) (Error err)))) ;;
          match e with
          | Some e => ret (Some e)
          | None => protocol_Write End_
          end
        else
          protocol_Write (Error_ {|
            Err_Code := u32 (ErrorCode err);
            Err_Message := Error err;
            Err_Description := no_description;
            Err_RelatedEntryIndex := None;
            Err_RelatedEntryType := None |})
    | None =>
        e <- protocol_Write (OutputEntry_ (Result_Value bytes)) ;;
        match e with
        | Some e => ret (Some e)
        | None => protocol_Write End_
        end
    end.

(** [func (m *Machine) invoke(ctx *Context, input []byte, outputSeen bool)
    error]: when the deferred function recovers a panic, the result is the
    zero value of the unnamed result, nil, whatever the write returned. *)
Definition invoke (handler : Handler) (input : bytes) (outputSeen : bool)
    (m : Machine) : option error * Machine :=
  match invoke_body handler input outputSeen m with
  | (Ret err, m) => (err, m)
  | (Panic typ, m) => (None, snd (recovered typ m))
  end.

(** The loop of [process] that reads the replayed journal: [n] more reads. *)
Fixpoint read_entries (n : nat) (outputSeen : bool) (m : Machine)
  : (error + bool) * Machine :=
  match n with
  | O => (inr outputSeen, m)
  | S n' =>
      match Protocol_Read (protocol m) with
      | (inr err, p) =>
          (inl (mkError ("failed to read entry: " +:+ Error err) (ErrorCode err)
                  (IsTerminalError err) (Is_io_EOF err)),
           set_protocol p m)
      | (inl msg, p) =>
          let m := set_entries (entries m ++ [msg]) (set_protocol p m) in
          read_entries n'
            (match msg with OutputEntry_ _ => true | _ => outputSeen end) m
      end
  end.

(** [func (m *Machine) process(ctx *Context, start *wire.StartMessage) error].
    The loop runs for [i] from 1 while [i < start.KnownEntries], on [uint32].
    [go m.handleCompletionsAcks()] only reads, and is accounted for where a
    future is awaited. *)
Definition process (handler : Handler) (start : StartMessage) (m : Machine)
  : option error * Machine :=
  let m :=
    set_current
      (foldl (fun cur entry => <[fst entry := snd entry]> cur) (current m)
         (Start_StateMap start)) m in
  match Protocol_Read (protocol m) with
  | (inr err, p) => (Some err, set_protocol p m)
  | (inl msg, p) =>
      let m := set_protocol p m in
      match msg with
      | InputEntry_ value =>
          let m := set_entries [] m in
          match read_entries (Z.to_nat (u32 (Start_KnownEntries start) - 1))
                  false m with
          | (inl err, m) => (Some err, m)
          | (inr outputSeen, m) => invoke handler value outputSeen m
          end
      | _ => (Some ErrUnexpectedMessage, m)
      end
  end.

(** [func (m *Machine) Start(inner context.Context, trace string) error];
    [inner] is the cause of the outer context when it is already
    cancelled. *)
Definition Start (handler : Handler) (inner : option error) (m : Machine)
  : option error * Machine :=
  match Protocol_Read (protocol m) with
  | (inr err, p) => (Some err, set_protocol p m)
  | (inl msg, p) =>
      let m := set_protocol p m in
      match msg with
      | Start_ start =>
          let m := set_ctx inner m in
          let m := set_suspensionCtx inner m in
          let m := set_id (Start_Id start) m in
          let m := set_key (Start_Key start) m in
          process handler start m
      | _ => (Some ErrUnexpectedMessage, m)
      end
  end.

End Invocation.

(** ** Vocabulary of the statements *)

(** The transport accepts every write. *)
Definition healthy (p : Protocol) : Prop := forall k, fault p k = None.

(** The frames the machine has written. *)
Definition frames (m : Machine) : list Message := written (protocol m).

(** An operation that leaves the cursor of the journal where it is. The
    callbacks of [replayOrNew] run while the journal mutex is held. *)
Definition keeps_cursor {A : Type} (c : Op A) : Prop :=
  forall m, entryIndex (snd (c m)) = entryIndex m.

(** The cursor and the length of the journal fit [uint32] with room for one
    more entry. *)
Definition in_bounds (m : Machine) : Prop :=
  0 <= entryIndex m < 2 ^ 32 - 1 /\ Z.of_nat (length (entries m)) < 2 ^ 32.

(** One call of [replayOrNew], whatever its type parameters and callbacks,
    made by user code that recovers from the panic, if any. *)
Record Operation : Type := mkOperation {
  op_M : Type;
  op_entry : EntryMessage op_M;
  op_O : Type;
  op_replay : op_M -> Op op_O;
  op_new : Op op_O
}.

Definition run_operation (o : Operation) (m : Machine) : option any * Machine :=
  match recover (@replayOrNew (op_M o) (op_entry o) (op_O o) (op_replay o) (op_new o)) m with
  | (Ret (Panic p), m') => (Some p, m')
  | (_, m') => (None, m')
  end.

Fixpoint run_operations (os : list Operation) (m : Machine)
  : list (option any) * Machine :=
  match os with
  | [] => ([], m)
  | o :: os' =>
      let '(r, m') := run_operation o m in
      let '(rs, m'') := run_operations os' m' in
      (r :: rs, m'')
  end.

(** [_, ok := msg.(OutputEntryMessage)], the test of [process]. *)
Definition is_Output (msg : Message) : bool :=
  match msg with OutputEntry_ _ => true | _ => false end.

(** ** Scenario S3 of the specification *)

(** The handler of S3: [call("svc", "", "m", "{}")], then await the
    response. *)
Definition s3_handler : Handler := fun _ =>
  r <- RequestFuture (fun b : bytes => inl b) (mkServiceCall "svc" "" "m")
         (Some [123; 125]) ;;
  match r with
  | inr err => ret ([], Some err)
  | inl fut =>
      out <- Response fut ;;
      match out with
      | inl v => ret (v, None)
      | inr err => ret ([], Some err)
      end
  end.

(** The stream of S3: Start with one known entry and no state, Input, then
    a clean close; every write succeeds. *)
Definition s3_conn (id : bytes) (debugId : string) (k : string) (input : bytes)
  : Protocol :=
  mkProtocol [Start_ (mkStart id debugId 1 [] false k); InputEntry_ input]
    io_EOF [] (fun _ => None).

Definition s3_call : Message := CallEntry_ (mkCall "svc" "m" [123; 125] "" None).

(** ** A journal replayed against other code *)

(** A machine past Start and Input whose replayed journal holds one
    [SetState] entry, and the frames still to come. *)
Definition replayed_set_state : Machine :=
  set_entries [SetStateEntry_ [97] [49]]
    (NewMachine (mkProtocol [] io_EOF [] (fun _ => None))).

(** The same, with the call of S3 as the replayed entry. *)
Definition replayed_call : Machine :=
  set_entries [CallEntry_ (mkCall "svc" "m" [123; 125] "" None)]
    (NewMachine (mkProtocol [] io_EOF [] (fun _ => None))).

(** A machine on a stream that has nothing more to deliver and accepts every
    write. *)
Definition idle : Machine := NewMachine (mkProtocol [] io_EOF [] (fun _ => None)).

(** A restart whose journal already holds the output: Input, then the
    replayed [Output]. *)
Definition replayed_output : Machine :=
  NewMachine (mkProtocol [InputEntry_ []; OutputEntry_ (Result_Value [49])]
                io_EOF [] (fun _ => None)).

Definition ext0 : Extern :=
  mkExtern 570 571 (fun _ _ _ => "journal mismatch") (fun _ => "panic").

(** ** The rest of [call.go] *)

(** [func (d decodingResponseFuture) Response(output any) (err error)];
    [Unmarshal] is [encoding.Unmarshal] with the codec of the call's options,
    and the value decoded stands for what is stored in [output]. *)
Definition decodingResponseFuture_Response {B : Type}
    (Unmarshal : bytes -> B + error) (d : ResponseFuture) : Op (B + error) :=
  r <- Response d ;;
  match r with
  | inr err => ret (inr err)
  | inl bytes =>
      match Unmarshal bytes with
      | inr err =>
          ret (inr (NewTerminalError
                      "failed to unmarshal Call response into output" err))
      | inl output => ret (inl output)
      end
  end.

(** [func (c *serviceCall) Request(input any, output any) error] *)
Definition Request {A B : Type} (Marshal : A -> bytes + error)
    (Unmarshal : bytes -> B + error) (c : serviceCall) (input : option A)
  : Op (B + error) :=
  r <- RequestFuture Marshal c input ;;
  match r with
  | inr err => ret (inr err)
  | inl fut => decodingResponseFuture_Response Unmarshal fut
  end.

(** [func (c *serviceCall) Send(input any, delay time.Duration) error] *)
Definition Send {A : Type} (Marshal : A -> bytes + error) (now : Z)
    (c : serviceCall) (input : A) (delay : Z) : Op (option error) :=
  match Marshal input with
  | inr err => ret (Some (NewTerminalError "failed to marshal Send input" err))
  | inl bytes =>
      sendCall now (service c) (key c) (method c) bytes delay ;;; ret None
  end.

(** ** More vocabulary *)

(** User code that makes the calls of a list one after the other and keeps
    what each returns. *)
Fixpoint doCalls (cs : list (serviceCall * bytes))
  : Op (list (CallEntryMessage * Z)) :=
  match cs with
  | [] => ret []
  | (c, params) :: cs' =>
      r <- doCall (service c) (key c) (method c) params ;;
      rs <- doCalls cs' ;;
      ret (r :: rs)
  end.

(** The request a call entry records. *)
Definition request_of (e : CallEntryMessage) : serviceCall * bytes :=
  (mkServiceCall (Call_ServiceName e) (Call_Key e) (Call_HandlerName e),
   Call_Parameter e).

(** The entry [_doCall] writes for a request. *)
Definition entry_of (r : serviceCall * bytes) : CallEntryMessage :=
  mkCall (service (fst r)) (method (fst r)) (snd r) (key (fst r)) None.

(** The machine [process] hands to [invoke]: the state map of Start loaded
    over the state store, the journal [es] read, and [rest] left on the
    stream. *)
Definition replayed (start : StartMessage) (es rest : list Message)
    (m : Machine) : Machine :=
  set_entries es
    (set_protocol
       (mkProtocol rest (read_end (protocol m)) (written (protocol m))
          (fault (protocol m)))
       (set_current
          (foldl (fun cur entry => <[fst entry := snd entry]> cur)
             (current m) (Start_StateMap start)) m)).

(** The machine [Start] hands to [process]: the outer context, the
    suspension context derived from it, and the id and key of Start. *)
Definition started (start : StartMessage) (inner : option error)
    (m : Machine) : Machine :=
  set_key (Start_Key start)
    (set_id (Start_Id start) (set_suspensionCtx inner (set_ctx inner m))).

(** One frame, or none. *)
Definition at_most_one (l : list Message) : Prop := (length l <= 1)%nat.

(** A frame that ends an invocation that failed or suspended. *)
Definition is_Error_or_Suspension (msg : Message) : bool :=
  match msg with Error_ _ | Suspension_ _ => true | _ => false end.

End State.

(* ===================================================================== *)
(** * Part III: properties of [internal/rand] *)
(* ===================================================================== *)

Module RandFacts.
Import Rand.

Lemma u64_range x : 0 <= u64 x < 2 ^ 64.
Proof. unfold u64. apply Z.mod_pos_bound. lia. Qed.

Lemma shr64_range x k : 0 <= x < 2 ^ 64 -> 0 <= k -> 0 <= shr64 x k < 2 ^ 64.
Proof.
  intros [Hx0 Hx] Hk. unfold shr64. rewrite Z.shiftr_div_pow2 by lia. split.
  - apply Z.div_pos; lia.
  - apply Z.le_lt_trans with x; [| lia].
    apply Z.div_le_upper_bound; [lia |]. nia.
Qed.

Lemma lor_range a b : 0 <= a < 2 ^ 64 -> 0 <= b < 2 ^ 64 -> 0 <= Z.lor a b < 2 ^ 64.
Proof.
  intros [Ha0 Ha] [Hb0 Hb]. split; [apply Z.lor_nonneg; lia |].
  destruct (Z.eq_dec (Z.lor a b) 0) as [-> | Hne]; [lia |].
  apply Z.log2_lt_pow2; [pose proof (Z.lor_nonneg a b); lia |].
  rewrite Z.log2_lor by lia.
  destruct (Z.eq_dec a 0) as [-> | Hane], (Z.eq_dec b 0) as [-> | Hbne];
    try (cbn; lia).
  - rewrite Z.max_r by (cbn; apply Z.log2_nonneg). apply Z.log2_lt_pow2; lia.
  - rewrite Z.max_l by (cbn; apply Z.log2_nonneg). apply Z.log2_lt_pow2; lia.
  - apply Z.max_lub_lt; apply Z.log2_lt_pow2; lia.
Qed.

Lemma lxor_range a b : 0 <= a < 2 ^ 64 -> 0 <= b < 2 ^ 64 -> 0 <= Z.lxor a b < 2 ^ 64.
Proof.
  intros [Ha0 Ha] [Hb0 Hb]. split; [apply Z.lxor_nonneg; lia |].
  destruct (Z.eq_dec (Z.lxor a b) 0) as [-> | Hne]; [lia |].
  assert (0 <= Z.lxor a b) by (apply Z.lxor_nonneg; lia).
  apply Z.log2_lt_pow2; [lia |].
  eapply Z.le_lt_trans; [apply Z.log2_lxor; lia |].
  destruct (Z.eq_dec a 0) as [-> | Hane], (Z.eq_dec b 0) as [-> | Hbne];
    try (cbn in *; lia).
  - rewrite Z.max_r by (cbn; apply Z.log2_nonneg). apply Z.log2_lt_pow2; lia.
  - rewrite Z.max_l by (cbn; apply Z.log2_nonneg). apply Z.log2_lt_pow2; lia.
  - apply Z.max_lub_lt; apply Z.log2_lt_pow2; lia.
Qed.

Lemma rotl_range x k : 0 <= x < 2 ^ 64 -> 0 <= rotl x k < 2 ^ 64.
Proof.
  intros Hx. unfold rotl. apply lor_range.
  - apply u64_range.
  - apply shr64_range; [exact Hx |]. apply u64_range.
Qed.

(** [rotl] is a rotation: bit [i] of the result is bit [i - k], modulo 64, of
    the argument. *)
Lemma rotl_testbit x k i :
  0 <= x < 2 ^ 64 -> 0 < k < 64 -> 0 <= i < 64 ->
  Z.testbit (rotl x k) i = Z.testbit x ((i - k) mod 64).
Proof.
  intros Hx Hk Hi. unfold rotl, shl64, shr64, sub64, u64.
  rewrite (Z.mod_small (64 - k)) by lia.
  rewrite Z.lor_spec, Z.mod_pow2_bits_low by lia.
  rewrite Z.shiftl_spec, Z.shiftr_spec by lia.
  destruct (Z_lt_dec i k) as [Hlt | Hge].
  - rewrite (Z.testbit_neg_r x (i - k)) by lia. cbn [orb].
    f_equal. replace (i - k) with (i + (64 - k) + (-1) * 64) by lia.
    rewrite Z.mod_add by lia. rewrite Z.mod_small by lia. reflexivity.
  - rewrite (Z.mod_small (i - k)) by lia.
    replace (Z.testbit x (i + (64 - k))) with false; [apply orb_false_r |].
    symmetry. apply Z.bits_above_log2; [lia |].
    destruct (Z.eq_dec x 0) as [-> | Hx0]; [cbn; lia |].
    apply Z.lt_le_trans with 64; [| lia]. apply Z.log2_lt_pow2; lia.
Qed.

(** The closed form of one step: every assignment of [Uint64] reads the
    words the assignments before it have left. *)
Lemma Uint64_closed (s : Source) :
  Uint64 s =
    (add64 (rotl (add64 (st0 s) (st3 s)) 23) (st0 s),
     let t := shl64 (st1 s) 17 in
     let s2 := Z.lxor (st2 s) (st0 s) in
     let s3 := Z.lxor (st3 s) (st1 s) in
     let s1 := Z.lxor (st1 s) s2 in
     let s0 := Z.lxor (st0 s) s3 in
     mkSource s0 s1 (Z.lxor s2 t) (rotl s3 45)).
Proof. destruct s; reflexivity. Qed.

Lemma Uint64_in_range (s : Source) :
  in_range s ->
  0 <= fst (Uint64 s) < 2 ^ 64 /\ in_range (snd (Uint64 s)).
Proof.
  intros (H0 & H1 & H2 & H3). rewrite Uint64_closed. cbn [fst snd]. split.
  - apply u64_range.
  - unfold in_range; cbn [st0 st1 st2 st3].
    assert (Ht : 0 <= shl64 (st1 s) 17 < 2 ^ 64) by apply u64_range.
    repeat split; repeat first [apply rotl_range | apply lxor_range | assumption].
Qed.

Lemma le_word_range (b : list Z) :
  Forall is_byte b -> 0 <= le_word b < 2 ^ (8 * Z.of_nat (length b)).
Proof.
  unfold is_byte. induction 1 as [| x b Hx Hb IH]; [cbn; lia |].
  cbn [le_word length]. rewrite Nat2Z.inj_succ.
  replace (8 * Z.succ (Z.of_nat (length b))) with (8 + 8 * Z.of_nat (length b)) by lia.
  rewrite Z.pow_add_r by lia. nia.
Qed.

(** On bytes, the shifts and ors of [binary.LittleEndian.Uint64] compute the
    little-endian number. *)
Lemma le_combine_le_word (b : list Z) :
  Forall is_byte b -> le_combine b = le_word b.
Proof.
  intros Hb. pose proof (le_word_range b Hb) as Hr. revert Hr.
  induction Hb as [| x b Hx Hb IH]; [reflexivity |]. intros _.
  pose proof (le_word_range b Hb) as Hr. specialize (IH Hr).
  cbn [le_combine le_word]. unfold is_byte in Hx.
  rewrite Z.shiftl_mul_pow2 by lia.
  assert (Hlow : Z.land x (le_combine b * 2 ^ 8) = 0).
  { apply Z.bits_inj'. intros i Hi. rewrite Z.land_spec, Z.bits_0.
    destruct (Z_lt_dec i 8).
    - rewrite Z.mul_pow2_bits_low by lia. apply andb_false_r.
    - replace (Z.testbit x i) with false; [reflexivity |].
      symmetry. destruct (Z.eq_dec x 0) as [-> | ?]; [apply Z.bits_0 |].
      apply Z.bits_above_log2; [lia |].
      apply Z.lt_le_trans with 8; [apply Z.log2_lt_pow2; lia | lia]. }
  rewrite <- Z.lxor_lor, <- Z.add_nocarry_lxor by exact Hlow.
  rewrite IH. lia.
Qed.

Lemma Forall_is_byte_take (n : nat) (b : list Z) :
  Forall is_byte b -> Forall is_byte (take n b).
Proof. apply Forall_take. Qed.

Lemma Forall_is_byte_drop (n : nat) (b : list Z) :
  Forall is_byte b -> Forall is_byte (drop n b).
Proof. apply Forall_drop. Qed.

(** Masking the low nibble and setting 0x40 leaves 0x40 in the high nibble. *)
Lemma version_bits (x : Z) : Z.land (Z.lor (Z.land x 0x0f) 0x40) 0xf0 = 0x40.
Proof.
  rewrite Z.land_lor_distr_l, <- Z.land_assoc.
  change (Z.land 0x0f 0xf0) with 0. rewrite Z.land_0_r. reflexivity.
Qed.

Lemma variant_bits (x : Z) : Z.land (Z.lor (Z.land x 0x3f) 0x80) 0xc0 = 0x80.
Proof.
  rewrite Z.land_lor_distr_l, <- Z.land_assoc.
  change (Z.land 0x3f 0xc0) with 0. rewrite Z.land_0_r. reflexivity.
Qed.

(** In arithmetic, [rotl] moves the low [64 - k] bits up by [k] and the high
    [k] bits down to the bottom. *)
Lemma rotl_arith (x k : Z) :
  0 <= x < 2 ^ 64 -> 0 < k < 64 ->
  rotl x k = (x * 2 ^ k) mod 2 ^ 64 + x / 2 ^ (64 - k).
Proof.
  intros Hx Hk. unfold rotl, shl64, shr64, sub64, u64.
  rewrite (Z.mod_small (64 - k)) by lia.
  rewrite Z.shiftl_mul_pow2, Z.shiftr_div_pow2 by lia.
  assert (Hland : Z.land ((x * 2 ^ k) mod 2 ^ 64) (x / 2 ^ (64 - k)) = 0).
  { apply Z.bits_inj'. intros i Hi. rewrite Z.land_spec, Z.bits_0.
    destruct (Z_lt_dec i k) as [Hlt | Hge].
    - rewrite Z.mod_pow2_bits_low by lia.
      rewrite Z.mul_pow2_bits_low by lia. reflexivity.
    - rewrite <- Z.shiftr_div_pow2 by lia. rewrite Z.shiftr_spec by lia.
      replace (Z.testbit x (i + (64 - k))) with false; [apply andb_false_r |].
      symmetry. destruct (Z.eq_dec x 0) as [-> | Hx0]; [apply Z.bits_0 |].
      apply Z.bits_above_log2; [lia |].
      apply Z.lt_le_trans with 64; [apply Z.log2_lt_pow2; lia | lia]. }
  rewrite <- Z.lxor_lor, <- Z.add_nocarry_lxor by exact Hland. reflexivity.
Qed.

(** C8. One call of [Uint64] returns [rotl(state[0]+state[3], 23) + state[0]]
    computed on the words before the call, and leaves the words
    [state[0] ^ state[3] ^ state[1]], [state[1] ^ state[2] ^ state[0]],
    [state[2] ^ state[0] ^ (state[1] << 17)] and
    [rotl(state[3] ^ state[1], 45)], which is what the assignments of the
    specification compute in their order, all on 64 bits. On 64-bit words
    this is spelled out in arithmetic modulo [2^64], where rotating [x] left
    by [k] is [(x * 2^k) mod 2^64 + x / 2^(64 - k)], and from the state
    [1, 2, 3, 4] the first three values are those of the reference
    implementation of this permutation. A new source holds the four
    little-endian 64-bit words of the SHA-256 digest of the invocation id; so
    equal invocation ids give equal sequences of values. *)
Theorem Uint64_step_and_seed (sha256_Sum : list Z -> list Z) :
  (forall id, Forall is_byte (sha256_Sum id)) ->
  (forall s : Source,
     in_range s ->
     let rot := fun x k : Z => (x * 2 ^ k) mod 2 ^ 64 + x / 2 ^ (64 - k) in
     let t := (st1 s * 2 ^ 17) mod 2 ^ 64 in
     let s2 := Z.lxor (st2 s) (st0 s) in
     let s3 := Z.lxor (st3 s) (st1 s) in
     let s1 := Z.lxor (st1 s) s2 in
     let s0 := Z.lxor (st0 s) s3 in
     Uint64 s =
       ((rot ((st0 s + st3 s) mod 2 ^ 64) 23 + st0 s) mod 2 ^ 64,
        mkSource s0 s1 (Z.lxor s2 t) (rot s3 45))) /\
  fst (draws 3 (mkSource 1 2 3 4)) =
    [41943041; 58720359; 3588806011781223] /\
  (forall s : Source,
     Uint64 s =
       (add64 (rotl (add64 (st0 s) (st3 s)) 23) (st0 s),
        let t := shl64 (st1 s) 17 in
        let s2 := Z.lxor (st2 s) (st0 s) in
        let s3 := Z.lxor (st3 s) (st1 s) in
        let s1 := Z.lxor (st1 s) s2 in
        let s0 := Z.lxor (st0 s) s3 in
        mkSource s0 s1 (Z.lxor s2 t) (rotl s3 45))) /\
  (forall s : Source,
     in_range s -> 0 <= fst (Uint64 s) < 2 ^ 64 /\ in_range (snd (Uint64 s))) /\
  (forall id,
     let sum := sha256_Sum id in
     newSource sha256_Sum id =
       mkSource (le_word (take 8 sum)) (le_word (take 8 (drop 8 sum)))
                (le_word (take 8 (drop 16 sum))) (le_word (take 8 (drop 24 sum)))
     /\ in_range (newSource sha256_Sum id)) /\
  (forall id1 id2 n,
     id1 = id2 ->
     draws n (newSource sha256_Sum id1) = draws n (newSource sha256_Sum id2)).
Proof.
  intros Hsum. split; [| split; [vm_compute; reflexivity |]].
  { intros s (H0 & H1 & H2 & H3) rot t s2 s3 s1 s0.
    rewrite Uint64_closed. cbv zeta. subst rot t s2 s3 s1 s0. cbv beta.
    rewrite !rotl_arith; try lia;
      [| apply lxor_range; assumption | apply u64_range].
    unfold add64, shl64, u64. rewrite Z.shiftl_mul_pow2 by lia. reflexivity. }
  split; [exact Uint64_closed |].
  split; [exact Uint64_in_range |]. split.
  - intros id sum. subst sum. unfold newSource, LittleEndian_Uint64.
    assert (Hw : forall k, le_combine (take 8 (take 8 (drop k (sha256_Sum id)))) =
                           le_word (take 8 (drop k (sha256_Sum id)))
                           /\ 0 <= le_word (take 8 (drop k (sha256_Sum id))) < 2 ^ 64).
    { intros k. rewrite take_take, Nat.min_id.
      assert (Hb : Forall is_byte (take 8 (drop k (sha256_Sum id)))).
      { apply Forall_is_byte_take, Forall_is_byte_drop, Hsum. }
      split; [apply le_combine_le_word, Hb |].
      pose proof (le_word_range _ Hb) as Hr.
      assert (Hlen : (length (take 8 (drop k (sha256_Sum id))) <= 8)%nat).
      { rewrite length_take. lia. }
      split; [lia |]. eapply Z.lt_le_trans; [apply Hr |].
      apply Z.pow_le_mono_r; lia. }
    pose proof (Hw 0%nat) as [E0 R0]. pose proof (Hw 8%nat) as [E1 R1].
    pose proof (Hw 16%nat) as [E2 R2]. pose proof (Hw 24%nat) as [E3 R3].
    rewrite drop_0 in E0, R0. rewrite E0, E1, E2, E3.
    split; [reflexivity |]. unfold in_range; cbn [st0 st1 st2 st3]. tauto.
  - intros id1 id2 n ->. reflexivity.
Qed.

(** The premises of [Uint64_step_and_seed] can be met: a digest of 32 bytes
    and the source it seeds, and a state of four 64-bit words and its step. *)
Lemma Uint64_step_and_seed_witness :
  (forall id : list Z, Forall is_byte (replicate 32 7)) /\
  in_range (mkSource 1 2 3 4) /\
  Uint64 (mkSource 1 2 3 4) = (41943041, mkSource 7 0 262146 211106232532992) /\
  newSource (fun _ => replicate 32 7) [0; 0] =
    mkSource 506381209866536711 506381209866536711
             506381209866536711 506381209866536711.
Proof.
  assert (H : forall id : list Z, Forall is_byte (replicate 32 7)).
  { intros _. apply Forall_replicate. unfold is_byte. lia. }
  assert (Hin : in_range (mkSource 1 2 3 4)) by (unfold in_range; cbn; lia).
  split; [exact H |]. split; [exact Hin |].
  destruct (Uint64_step_and_seed (fun _ => replicate 32 7) H)
    as (Hstep & _ & _ & _ & Hseed & _).
  split.
  - pose proof (Hstep (mkSource 1 2 3 4) Hin) as E. cbv zeta in E.
    rewrite E. vm_compute. reflexivity.
  - destruct (Hseed [0; 0]) as [Heq _]. rewrite Heq. vm_compute. reflexivity.
Defined.

(** C9. Whatever the state of the source, the identifier [UUID] returns has
    [byte[6] & 0xf0 == 0x40] and [byte[8] & 0xc0 == 0x80]; its sixteen bytes
    are those of two successive [Uint64] values, each least significant byte
    first, with the version and the variant bits overwritten afterwards. *)
Theorem UUID_version_variant (s : Source) :
  let a := fst (Uint64 s) in
  let b := fst (Uint64 (snd (Uint64 s))) in
  let uuid := fst (UUID s) in
  Z.land (uuid !!! 6%nat) 0xf0 = 0x40 /\
  Z.land (uuid !!! 8%nat) 0xc0 = 0x80 /\
  UUID s =
    ([byte_at a 0; byte_at a 1; byte_at a 2; byte_at a 3;
      byte_at a 4; byte_at a 5;
      Z.lor (Z.land (byte_at a 6) 0x0f) 0x40; byte_at a 7;
      Z.lor (Z.land (byte_at b 0) 0x3f) 0x80; byte_at b 1; byte_at b 2;
      byte_at b 3; byte_at b 4; byte_at b 5; byte_at b 6; byte_at b 7],
     snd (Uint64 (snd (Uint64 s)))).
Proof.
  intros a b uuid. subst a b uuid. unfold UUID.
  destruct (Uint64 s) as [a s1]. cbn [fst snd].
  destruct (Uint64 s1) as [b s2]. cbn [fst snd].
  change (LittleEndian_PutUint64 8 b (LittleEndian_PutUint64 0 a (replicate 16 0)))
    with [byte_at a 0; byte_at a 1; byte_at a 2; byte_at a 3;
          byte_at a 4; byte_at a 5; byte_at a 6; byte_at a 7;
          byte_at b 0; byte_at b 1; byte_at b 2; byte_at b 3;
          byte_at b 4; byte_at b 5; byte_at b 6; byte_at b 7].
  cbn [insert list_insert lookup_total list_lookup_total].
  split; [apply version_bits |]. split; [apply variant_bits |]. reflexivity.
Qed.

End RandFacts.

(* ===================================================================== *)
(** * Part IV: properties of [internal/state] *)
(* ===================================================================== *)

Module StateFacts.
Import State.
Local Open Scope op_scope.

Lemma u32_small (x : Z) : 0 <= x < 2 ^ 32 -> u32 x = x.
Proof. intros Hx. unfold u32. apply Z.mod_small. exact Hx. Qed.

(** *** The transport *)

Lemma Protocol_Write_healthy (msg : Message) (p : Protocol) :
  healthy p ->
  Protocol_Write msg p =
    (None, mkProtocol (incoming p) (read_end p) (written p ++ [msg]) (fault p)).
Proof. intros Hp. unfold Protocol_Write. rewrite Hp. reflexivity. Qed.

Lemma protocol_Write_healthy (msg : Message) (m : Machine) :
  healthy (protocol m) ->
  protocol_Write msg m =
    (Ret None,
     set_protocol (mkProtocol (incoming (protocol m)) (read_end (protocol m))
                     (written (protocol m) ++ [msg]) (fault (protocol m))) m).
Proof.
  intros Hp. unfold protocol_Write. rewrite Protocol_Write_healthy by exact Hp.
  reflexivity.
Qed.

Lemma protocol_Write_frames (msg : Message) (m : Machine) :
  healthy (protocol m) ->
  fst (protocol_Write msg m) = Ret None /\
  frames (snd (protocol_Write msg m)) = frames m ++ [msg] /\
  healthy (protocol (snd (protocol_Write msg m))).
Proof.
  intros Hp. rewrite protocol_Write_healthy by exact Hp. cbn.
  repeat split. exact Hp.
Qed.

(** *** The journal *)

Lemma currentEntry_replay (m : Machine) (i : Z) :
  0 < i < 2 ^ 32 -> Z.of_nat (length (entries m)) < 2 ^ 32 ->
  i <= Z.of_nat (length (entries m)) ->
  exists entry,
    entries m !! Z.to_nat (i - 1) = Some entry /\
    currentEntry (set_entryIndex i m) = (Ret (Some entry), set_entryIndex i m).
Proof.
  intros Hi Hlen Hle.
  destruct (lookup_lt_is_Some_2 (entries m) (Z.to_nat (i - 1))) as [entry He];
    [lia |].
  exists entry. split; [exact He |].
  unfold currentEntry. cbn [entryIndex entries set_entryIndex].
  rewrite !u32_small by lia.
  destruct (Z.leb_spec i (Z.of_nat (length (entries m)))); [| lia].
  rewrite He. reflexivity.
Qed.

Lemma currentEntry_new (m : Machine) (i : Z) :
  0 < i < 2 ^ 32 -> Z.of_nat (length (entries m)) < 2 ^ 32 ->
  Z.of_nat (length (entries m)) < i ->
  currentEntry (set_entryIndex i m) = (Ret None, set_entryIndex i m).
Proof.
  intros Hi Hlen Hlt. unfold currentEntry. cbn [entryIndex entries set_entryIndex].
  rewrite u32_small by lia.
  destruct (Z.leb_spec i (Z.of_nat (length (entries m)))); [lia | reflexivity].
Qed.

Lemma type_assert_None {M : Type} `{EntryMessage M} (msg : Message) :
  MessageType_of msg <> entry_type M -> type_assert msg = None.
Proof.
  intros Hne. destruct (type_assert msg) as [x |] eqn:E; [| reflexivity].
  exfalso. apply Hne. apply type_assert_type. rewrite E. eauto.
Qed.

Lemma type_assert_to_Message {M : Type} `{EntryMessage M} (x : M) :
  type_assert (to_Message x) = Some x.
Proof. apply type_assert_Some. reflexivity. Qed.

(** [replayOrNew] on a machine without stored failure, entry in the replayed
    range. *)
Lemma replayOrNew_replay {M : Type} `{EntryMessage M} {O : Type}
    (replay : M -> Op O) (new : Op O) (m : Machine) (entry : Message) :
  failure m = None -> in_bounds m ->
  entries m !! Z.to_nat (entryIndex m) = Some entry ->
  replayOrNew replay new m =
    let m1 := set_entryIndex (entryIndex m + 1) m in
    match type_assert entry with
    | None =>
        (Panic (entryMismatch (entryIndex m + 1) (TypedNil (entry_type M))
                  (TypedNil (entry_type M))),
         set_failure
           (Some (entryMismatch (entryIndex m + 1) (TypedNil (entry_type M))
                    (TypedNil (entry_type M))))
           m1)
    | Some e =>
        match replay e m1 with
        | (Ret o, m') => (Ret (o, entryIndex m'), m')
        | (Panic p, m') => (Panic p, m')
        end
    end.
Proof.
  intros Hf [Hi Hlen] He. unfold replayOrNew. rewrite Hf.
  rewrite u32_small by lia.
  assert (Hlt : (Z.to_nat (entryIndex m) < length (entries m))%nat).
  { eapply lookup_lt_Some, He. }
  destruct (currentEntry_replay m (entryIndex m + 1)) as (entry' & He' & ->);
    [lia | lia | lia |].
  replace (entryIndex m + 1 - 1) with (entryIndex m) in He' by lia.
  rewrite He in He'. injection He' as <-.
  destruct (type_assert entry); reflexivity.
Qed.

(** [replayOrNew] on a machine without stored failure, past the replayed
    range. *)
Lemma replayOrNew_new {M : Type} `{EntryMessage M} {O : Type}
    (replay : M -> Op O) (new : Op O) (m : Machine) :
  failure m = None -> in_bounds m ->
  Z.of_nat (length (entries m)) < entryIndex m + 1 ->
  replayOrNew replay new m =
    match new (set_entryIndex (entryIndex m + 1) m) with
    | (Ret o, m') => (Ret (o, entryIndex m'), m')
    | (Panic p, m') => (Panic p, m')
    end.
Proof.
  intros Hf [Hi Hlen] Hlt. unfold replayOrNew. rewrite Hf.
  rewrite u32_small by lia.
  rewrite currentEntry_new by lia. reflexivity.
Qed.

Lemma replayOrNew_failed {M : Type} `{EntryMessage M} {O : Type}
    (replay : M -> Op O) (new : Op O) (m : Machine) (f : any) :
  failure m = Some f -> replayOrNew replay new m = (Panic f, m).
Proof. intros Hf. unfold replayOrNew. rewrite Hf. reflexivity. Qed.

(** The callbacks of the package leave the cursor in place. *)
Lemma Machine_Write_keeps_cursor (msg : Message) : keeps_cursor (Machine_Write msg).
Proof.
  intros m. unfold Machine_Write.
  destruct (Protocol_Write msg (protocol m)) as [[err |] p]; [reflexivity |].
  destruct (completable msg); [reflexivity |].
  destruct (ackable msg); reflexivity.
Qed.

Lemma _doCall_keeps_cursor (service key method : string) (params : list Z) :
  keeps_cursor (_doCall service key method params).
Proof.
  intros m. unfold _doCall, bind.
  pose proof (Machine_Write_keeps_cursor
                (CallEntry_ (mkCall service method params key None)) m) as Hk.
  destruct (Machine_Write _ m) as [[[] | p] m']; exact Hk.
Qed.

Lemma _sendCall_keeps_cursor (now : Z) (service key method : string)
    (params : list Z) (delay : Z) :
  keeps_cursor (_sendCall now service key method params delay).
Proof. intros m. apply Machine_Write_keeps_cursor. Qed.

(** What [replayOrNew] does keep of its contract. On a machine that holds no
    stored failure, whose cursor and journal length fit [uint32], and with
    callbacks that leave the cursor in place, [replayOrNew] with expected
    entry type [M] moves the cursor to
    [i], one more than before. When [i <= N - 1], where [N - 1] is the length
    of the replayed journal, the entry at position [i] is fetched: if its type
    is not [M] the call panics with a mismatch of expected type [M] and index
    [i], which is stored, and whose actual entry is the nil pointer of type
    [M]; if it is an [M], the call returns what [replay]
    returns on it, with [i]. When [i] is past the replayed journal the call
    returns what [new] returns, with [i]. *)
Theorem replayOrNew_contract {M : Type} `{EntryMessage M} {O : Type}
    (replay : M -> Op O) (new : Op O) (m : Machine) :
  failure m = None -> in_bounds m ->
  (forall e, keeps_cursor (replay e)) -> keeps_cursor new ->
  let i := entryIndex m + 1 in
  let m1 := set_entryIndex i m in
  let N := Z.of_nat (length (entries m)) + 1 in
  entryIndex (snd (replayOrNew replay new m)) = i /\
  (i <= N - 1 ->
     exists entry,
       entries m !! Z.to_nat (i - 1) = Some entry /\
       (MessageType_of entry <> entry_type M ->
          replayOrNew replay new m =
            (Panic (entryMismatch i (TypedNil (entry_type M))
                      (TypedNil (entry_type M))),
             set_failure
               (Some (entryMismatch i (TypedNil (entry_type M))
                        (TypedNil (entry_type M)))) m1)) /\
       (forall e : M, entry = to_Message e ->
          replayOrNew replay new m =
            match replay e m1 with
            | (Ret o, m') => (Ret (o, i), m')
            | (Panic p, m') => (Panic p, m')
            end)) /\
  (N - 1 < i ->
     replayOrNew replay new m =
       match new m1 with
       | (Ret o, m') => (Ret (o, i), m')
       | (Panic p, m') => (Panic p, m')
       end).
Proof.
  intros Hf Hb Hreplay Hnew i m1 N. subst N.
  assert (Hi1 : entryIndex m1 = i) by reflexivity.
  destruct (Z_le_dec i (Z.of_nat (length (entries m)) + 1 - 1)) as [Hle | Hgt].
  - destruct Hb as [Hi Hlen].
    destruct (lookup_lt_is_Some_2 (entries m) (Z.to_nat (entryIndex m)))
      as [entry He]; [subst i; lia |].
    pose proof (replayOrNew_replay replay new m entry Hf (conj Hi Hlen) He) as Hrun.
    cbv zeta in Hrun. fold i in Hrun. fold m1 in Hrun.
    assert (Hcur : entryIndex (snd (replayOrNew replay new m)) = i).
    { rewrite Hrun. destruct (type_assert entry) as [e |]; [| reflexivity].
      pose proof (Hreplay e m1) as Hk.
      destruct (replay e m1) as [[o | p] m']; cbn [snd] in *; congruence. }
    split; [exact Hcur |]. split; [| intros; lia].
    intros _. exists entry. replace (i - 1) with (entryIndex m) by (subst i; lia).
    split; [exact He |]. split.
    + intros Hne. rewrite Hrun, (type_assert_None entry Hne). reflexivity.
    + intros e ->. rewrite Hrun, type_assert_to_Message.
      pose proof (Hreplay e m1) as Hk.
      destruct (replay e m1) as [[o | p] m']; cbn [snd] in *; congruence.
  - pose proof (replayOrNew_new replay new m Hf Hb ltac:(subst i; lia)) as Hrun.
    fold i in Hrun. fold m1 in Hrun.
    pose proof (Hnew m1) as Hk.
    assert (Hrun' : replayOrNew replay new m =
                    match new m1 with
                    | (Ret o, m') => (Ret (o, i), m')
                    | (Panic p, m') => (Panic p, m')
                    end).
    { rewrite Hrun. destruct (new m1) as [[o | p] m']; cbn [snd] in *; congruence. }
    split; [| split; [intros; lia | intros _; exact Hrun']].
    rewrite Hrun'. destruct (new m1) as [[o | p] m']; cbn [snd] in *; congruence.
Qed.

(** The premises of [replayOrNew_contract] hold of a new machine and the
    callbacks of a call: the call is entry 1 and is written. *)
Lemma replayOrNew_contract_witness :
  failure idle = None /\ in_bounds idle /\
  keeps_cursor (_doCall "svc" "" "m" [123; 125]) /\
  fst (replayOrNew (fun e : CallEntryMessage => ret e)
         (_doCall "svc" "" "m" [123; 125]) idle) =
    Ret (mkCall "svc" "m" [123; 125] "" None, 1).
Proof.
  assert (Hb : in_bounds idle) by (unfold in_bounds; cbn; lia).
  split; [reflexivity |]. split; [exact Hb |].
  split; [apply _doCall_keeps_cursor |].
  destruct (replayOrNew_contract (fun e : CallEntryMessage => ret e)
              (_doCall "svc" "" "m" [123; 125]) idle
              eq_refl Hb (fun e m => eq_refl)
              (_doCall_keeps_cursor "svc" "" "m" [123; 125]))
    as (_ & _ & Hnew).
  rewrite Hnew; [reflexivity | cbn; lia].
Defined.

(** C1. The code does not raise the mismatch the claim describes. The
    machine has read a journal of one entry, a [SetState]; the handler's
    first operation is a call, so [replayOrNew] expects a call entry, moves
    the cursor to 1, fetches entry 1 and finds that its type is not the
    expected one. The mismatch it raises and stores has index 1 and the
    expected type, but its actual entry is not the entry fetched: in
    [if entry, ok := entry.(M); !ok] the assertion's own [entry], the nil
    pointer of the expected type, hides it. [invoke] then reports the type of
    the call as the related entry type, not the type of the entry that was
    replayed. *)
Theorem replayOrNew_mismatch_actual_entry :
  failure replayed_set_state = None /\
  entryIndex replayed_set_state = 0 /\
  entries replayed_set_state = [SetStateEntry_ [97] [49]] /\
  doCall "svc" "" "m" [] replayed_set_state =
    (Panic (entryMismatch 1 (TypedNil CallEntryMessageType)
              (TypedNil CallEntryMessageType)),
     set_failure
       (Some (entryMismatch 1 (TypedNil CallEntryMessageType)
                (TypedNil CallEntryMessageType)))
       (set_entryIndex 1 replayed_set_state)) /\
  fst (doCall "svc" "" "m" [] replayed_set_state) <>
    Panic (entryMismatch 1 (TypedNil CallEntryMessageType)
             (Ptr (SetStateEntry_ [97] [49]))) /\
  frames (snd (invoke ext0 s3_handler [] false replayed_set_state)) =
    [Error_ {| Err_Code := 570;
               Err_Message := "journal mismatch";
               Err_Description := debug_Stack;
               Err_RelatedEntryIndex := Some 1;
               Err_RelatedEntryType := Some CallEntryMessageType |}] /\
  MessageType_of (SetStateEntry_ [97] [49]) <> CallEntryMessageType.
Proof.
  split; [reflexivity |]. split; [reflexivity |]. split; [reflexivity |].
  split; [vm_compute; reflexivity |].
  split; [vm_compute; discriminate |].
  split; [vm_compute; reflexivity | discriminate].
Qed.

(** C3. Once a failure is stored, a call of [replayOrNew] raises that same
    failure and leaves the machine as it was: the cursor is not moved, the
    journal is not read, no callback runs. So does every later call, also
    when user code recovers from each panic. *)
Theorem replayOrNew_sticky (f : any) (m : Machine) :
  failure m = Some f ->
  (forall (M : Type) (HM : EntryMessage M) (O : Type)
          (replay : M -> Op O) (new : Op O),
     replayOrNew replay new m = (Panic f, m)) /\
  (forall os : list Operation,
     run_operations os m = (map (fun _ => Some f) os, m)).
Proof.
  intros Hf. split.
  - intros M HM O replay new. apply replayOrNew_failed, Hf.
  - induction os as [| o os IH]; [reflexivity |].
    cbn [run_operations map]. unfold run_operation, recover.
    rewrite (replayOrNew_failed _ _ m f Hf). rewrite IH. reflexivity.
Qed.

(** The premise of [replayOrNew_sticky] holds after a journal mismatch. *)
Lemma replayOrNew_sticky_witness :
  let m := snd (doCall "svc" "" "m" [] replayed_set_state) in
  let f := entryMismatch 1 (TypedNil CallEntryMessageType)
             (TypedNil CallEntryMessageType) in
  failure m = Some f /\
  sendCall 0 "svc" "" "m" [] 0 m = (Panic f, m).
Proof.
  intros m f. split; [reflexivity |].
  unfold sendCall, bind.
  rewrite (proj1 (replayOrNew_sticky f m eq_refl)). reflexivity.
Defined.

(** *** Calls *)

Lemma discriminators_equal (a s k1 k h mth : string) (p q : list Z) :
  negb (String.eqb a s) || negb (String.eqb k1 k) || negb (String.eqb h mth)
    || negb (bytes_Equal p q) = false <->
  a = s /\ k1 = k /\ h = mth /\ p = q.
Proof.
  unfold bytes_Equal.
  destruct (String.eqb_spec a s), (String.eqb_spec k1 k), (String.eqb_spec h mth),
    (bool_decide_reflect (p = q)); cbn; split; intros Hx;
    try discriminate Hx; try reflexivity; tauto.
Qed.

Lemma discriminators_differ (a s k1 k h mth : string) (p q : list Z) :
  a <> s \/ k1 <> k \/ h <> mth \/ p <> q ->
  negb (String.eqb a s) || negb (String.eqb k1 k) || negb (String.eqb h mth)
    || negb (bytes_Equal p q) = true.
Proof.
  intros Hd.
  destruct (negb (String.eqb a s) || negb (String.eqb k1 k)
            || negb (String.eqb h mth) || negb (bytes_Equal p q)) eqn:E;
    [reflexivity |].
  apply discriminators_equal in E. tauto.
Qed.

(** *** The invocation boundary *)

Lemma invoke_panic (ext : Extern) (handler : Handler) (input : list Z)
    (m m' : Machine) (p : any) :
  handler input m = (Panic p, m') ->
  invoke ext handler input false m = (None, snd (recovered ext p m')).
Proof.
  intros Hh. unfold invoke, invoke_body, bind. rewrite Hh. reflexivity.
Qed.

Lemma recovered_entryMismatch (ext : Extern) (idx : Z)
    (expected actual : IMessage) (m : Machine) :
  healthy (protocol m) ->
  frames (snd (recovered ext (entryMismatch idx expected actual) m)) =
    frames m ++
    [Error_ {| Err_Code := u32 (ErrJournalMismatch ext);
               Err_Message := Sprintf_mismatch ext idx expected actual;
               Err_Description := debug_Stack;
               Err_RelatedEntryIndex := Some idx;
               Err_RelatedEntryType := Some (IMessage_type actual) |}].
Proof. intros Hp. cbn [recovered]. apply protocol_Write_frames, Hp. Qed.

(** C2. While the journal is replayed, [doCall] and [sendCall] that meet an
    entry of their own type compare its service name, key, handler name and
    parameter bytes with those of the operation. If any of them differs the
    call panics with a journal mismatch, which is stored, and which the
    invocation reports as an error message with the journal-mismatch code and
    nothing after it. If all are equal, [doCall] returns the replayed entry
    with its index and [sendCall] returns; in both cases only the cursor has
    moved, and no frame was written. *)
Theorem call_replay_discriminators (ext : Extern) (now delay : Z)
    (service key method : string) (params : list Z) (m : Machine) :
  failure m = None -> in_bounds m ->
  let i := entryIndex m + 1 in
  let m1 := set_entryIndex i m in
  frames m1 = frames m /\
  (forall entry : CallEntryMessage,
     entries m !! Z.to_nat (i - 1) = Some (CallEntry_ entry) ->
     let mismatch :=
       entryMismatch i (Ptr (CallEntry_ (mkCall service method params key None)))
         (Ptr (CallEntry_ entry)) in
     (Call_ServiceName entry <> service \/ Call_Key entry <> key \/
      Call_HandlerName entry <> method \/ Call_Parameter entry <> params ->
        doCall service key method params m =
          (Panic mismatch, set_failure (Some mismatch) m1)) /\
     (Call_ServiceName entry = service /\ Call_Key entry = key /\
      Call_HandlerName entry = method /\ Call_Parameter entry = params ->
        doCall service key method params m = (Ret (entry, i), m1))) /\
  (forall entry : OneWayCallEntryMessage,
     entries m !! Z.to_nat (i - 1) = Some (OneWayCallEntry_ entry) ->
     let mismatch :=
       entryMismatch i
         (Ptr (OneWayCallEntry_ (mkOneWayCall service method params 0 key)))
         (Ptr (OneWayCallEntry_ entry)) in
     (OneWay_ServiceName entry <> service \/ OneWay_Key entry <> key \/
      OneWay_HandlerName entry <> method \/ OneWay_Parameter entry <> params ->
        sendCall now service key method params delay m =
          (Panic mismatch, set_failure (Some mismatch) m1)) /\
     (OneWay_ServiceName entry = service /\ OneWay_Key entry = key /\
      OneWay_HandlerName entry = method /\ OneWay_Parameter entry = params ->
        sendCall now service key method params delay m = (Ret tt, m1))) /\
  (forall (handler : Handler) (input : list Z) (m0 m' : Machine)
          (idx : Z) (expected actual : IMessage),
     handler input m0 = (Panic (entryMismatch idx expected actual), m') ->
     healthy (protocol m') ->
     fst (invoke ext handler input false m0) = None /\
     frames (snd (invoke ext handler input false m0)) =
       frames m' ++
       [Error_ {| Err_Code := u32 (ErrJournalMismatch ext);
                  Err_Message := Sprintf_mismatch ext idx expected actual;
                  Err_Description := debug_Stack;
                  Err_RelatedEntryIndex := Some idx;
                  Err_RelatedEntryType := Some (IMessage_type actual) |}]).
Proof.
  intros Hf Hb i m1. split; [reflexivity |]. split; [| split].
  - intros entry He mismatch.
    replace (i - 1) with (entryIndex m) in He by (subst i; lia).
    pose proof (replayOrNew_replay
                  (fun entry : CallEntryMessage =>
                     if negb (String.eqb (Call_ServiceName entry) service)
                        || negb (String.eqb (Call_Key entry) key)
                        || negb (String.eqb (Call_HandlerName entry) method)
                        || negb (bytes_Equal (Call_Parameter entry) params)
                     then
                       fun m =>
                         let '(e, m) :=
                           newEntryMismatch
                             (Ptr (CallEntry_ (mkCall service method params key None)))
                             (Ptr (CallEntry_ entry)) m in
                         (Panic e, m)
                     else ret entry)
                  (_doCall service key method params) m _ Hf Hb He) as Hrun.
    cbn [type_assert CallEntryMessage_entry] in Hrun. cbv zeta in Hrun.
    fold i in Hrun. fold m1 in Hrun.
    unfold doCall. rewrite Hrun. split.
    + intros Hd. rewrite discriminators_differ by exact Hd. reflexivity.
    + intros He4. apply discriminators_equal in He4. rewrite He4. reflexivity.
  - intros entry He mismatch.
    replace (i - 1) with (entryIndex m) in He by (subst i; lia).
    pose proof (replayOrNew_replay
                  (fun entry : OneWayCallEntryMessage =>
                     if negb (String.eqb (OneWay_ServiceName entry) service)
                        || negb (String.eqb (OneWay_Key entry) key)
                        || negb (String.eqb (OneWay_HandlerName entry) method)
                        || negb (bytes_Equal (OneWay_Parameter entry) params)
                     then
                       fun m =>
                         let '(e, m) :=
                           newEntryMismatch
                             (Ptr (OneWayCallEntry_
                                     (mkOneWayCall service method params 0 key)))
                             (Ptr (OneWayCallEntry_ entry)) m in
                         (Panic e, m)
                     else ret tt)
                  (_sendCall now service key method params delay) m _ Hf Hb He)
      as Hrun.
    cbn [type_assert OneWayCallEntryMessage_entry] in Hrun. cbv zeta in Hrun.
    fold i in Hrun. fold m1 in Hrun.
    unfold sendCall, bind. rewrite Hrun. split.
    + intros Hd. rewrite discriminators_differ by exact Hd. reflexivity.
    + intros He4. apply discriminators_equal in He4. rewrite He4. reflexivity.
  - intros handler input m0 m' idx expected actual Hh Hp.
    rewrite (invoke_panic ext handler input m0 m' _ Hh). cbn [fst snd].
    split; [reflexivity |]. apply recovered_entryMismatch, Hp.
Qed.

(** The premises of [call_replay_discriminators] hold of a machine whose
    journal holds the call of S3: the same call is replayed. *)
Lemma call_replay_discriminators_witness :
  failure replayed_call = None /\ in_bounds replayed_call /\
  doCall "svc" "" "m" [123; 125] replayed_call =
    (Ret (mkCall "svc" "m" [123; 125] "" None, 1), set_entryIndex 1 replayed_call).
Proof.
  assert (Hb : in_bounds replayed_call) by (unfold in_bounds; cbn; lia).
  split; [reflexivity |]. split; [exact Hb |].
  destruct (call_replay_discriminators ext0 0 0 "svc" "" "m" [123; 125]
              replayed_call eq_refl Hb) as (_ & Hcall & _).
  apply (Hcall (mkCall "svc" "m" [123; 125] "" None) eq_refl).
  repeat split.
Defined.

Lemma healthy_idle : healthy (protocol idle).
Proof. intros k. reflexivity. Qed.

(** *** Replaying the journal *)

Lemma read_entries_all (es : list Message) :
  forall (rest : list Message) (outputSeen : bool) (m : Machine),
    incoming (protocol m) = es ++ rest ->
    read_entries (length es) outputSeen m =
      (inr (outputSeen || existsb is_Output es),
       set_entries (entries m ++ es)
         (set_protocol
            (mkProtocol rest (read_end (protocol m)) (written (protocol m))
               (fault (protocol m))) m)).
Proof.
  induction es as [| msg es IH]; intros rest outputSeen m Hin.
  - cbn [read_entries length existsb]. rewrite orb_false_r, app_nil_r.
    cbn [app] in Hin. destruct m as [? ? [inc re wr fl] ? ? ? ? ? ? ? ? ? ?].
    cbn in *. subst inc. reflexivity.
  - cbn [read_entries length]. unfold Protocol_Read. rewrite Hin. cbn [app].
    rewrite (IH rest); [| reflexivity].
    f_equal.
    + f_equal. cbn [existsb]. unfold is_Output at 2.
      destruct msg; cbn; try reflexivity; destruct outputSeen; reflexivity.
    + destruct m as [? ? [inc re wr fl] ? ? ? ? ? ? ? ? ? ?]. cbn.
      rewrite <- app_assoc. reflexivity.
Qed.

Lemma existsb_is_Output (es : list Message) (r : Result) :
  In (OutputEntry_ r) es -> existsb is_Output es = true.
Proof. intros Hin. apply existsb_exists. exists (OutputEntry_ r). split; [exact Hin | reflexivity]. Qed.

(** C4. When the journal replayed after Input holds an [Output] entry, the
    handler is not called: whatever the handler, the machine writes one
    [EndMessage], no other frame, and returns no error. *)
Theorem process_output_seen (ext : Extern) (handler : Handler)
    (start : StartMessage) (m : Machine) (value : list Z)
    (es rest : list Message) (r : Result) :
  incoming (protocol m) = InputEntry_ value :: es ++ rest ->
  Z.of_nat (length es) = u32 (Start_KnownEntries start) - 1 ->
  In (OutputEntry_ r) es ->
  fault (protocol m) (length (frames m)) = None ->
  fst (process ext handler start m) = None /\
  frames (snd (process ext handler start m)) = frames m ++ [End_] /\
  (forall handler' : Handler,
     process ext handler' start m = process ext handler start m).
Proof.
  intros Hin HN Hout Hfault.
  assert (Hrun : forall h : Handler,
             process ext h start m =
               invoke ext h value true
                 (set_entries es
                    (set_protocol
                       (mkProtocol rest (read_end (protocol m))
                          (written (protocol m)) (fault (protocol m)))
                       (set_current
                          (foldl (fun cur entry => <[entry.1 := entry.2]> cur)
                             (current m) (Start_StateMap start)) m)))).
  { intros h. unfold process. cbn [protocol set_current]. unfold Protocol_Read.
    rewrite Hin. rewrite <- HN, Nat2Z.id.
    rewrite (read_entries_all es rest); [| reflexivity].
    cbn [orb]. rewrite (existsb_is_Output es r Hout).
    destruct m as [? ? [inc re wr fl] ? ? ? ? ? ? ? ? ? ?]. reflexivity. }
  assert (Hinv : forall h : Handler,
             process ext h start m =
               (None,
                set_entries es
                  (set_protocol
                     (mkProtocol rest (read_end (protocol m))
                        (written (protocol m) ++ [End_]) (fault (protocol m)))
                     (set_current
                        (foldl (fun cur entry => <[entry.1 := entry.2]> cur)
                           (current m) (Start_StateMap start)) m)))).
  { intros h. rewrite Hrun. unfold invoke, invoke_body, protocol_Write, Protocol_Write.
    cbn [protocol set_entries set_protocol set_current written fault].
    unfold frames in Hfault. rewrite Hfault. reflexivity. }
  rewrite Hinv. cbn [fst snd]. split; [reflexivity |]. split; [reflexivity |].
  intros h'. apply Hinv.
Qed.

(** The premises of [process_output_seen] hold of a restart whose journal
    holds the output already, whatever the handler. *)
Lemma process_output_seen_witness :
  incoming (protocol replayed_output) =
    InputEntry_ [] :: [OutputEntry_ (Result_Value [49])] ++ [] /\
  frames (snd (process ext0 s3_handler (mkStart [] "" 2 [] false "") replayed_output))
    = [End_].
Proof.
  split; [reflexivity |].
  apply (process_output_seen ext0 s3_handler (mkStart [] "" 2 [] false "")
           replayed_output [] [OutputEntry_ (Result_Value [49])] []
           (Result_Value [49]) eq_refl eq_refl (or_introl eq_refl) eq_refl).
Defined.

(** *** Termination *)

Lemma bind_returned {A B : Type} (c : Op A) (k : A -> Op B)
    (m m' : Machine) (a : A) :
  c m = (Ret a, m') -> bind c k m = k a m'.
Proof. intros Hc. unfold bind. rewrite Hc. reflexivity. Qed.

Lemma write_then_End (msg : Message) (m : Machine) :
  healthy (protocol m) ->
  (e <- protocol_Write msg ;;
   match e with
   | Some e => ret (Some e)
   | None => protocol_Write End_
   end) m =
  (Ret None,
   set_protocol
     (mkProtocol (incoming (protocol m)) (read_end (protocol m))
        (written (protocol m) ++ [msg; End_]) (fault (protocol m))) m).
Proof.
  intros Hp. unfold bind. rewrite protocol_Write_healthy by exact Hp.
  rewrite protocol_Write_healthy by exact Hp.
  cbn. rewrite <- app_assoc. reflexivity.
Qed.

(** C5. When the handler returns and the transport accepts the writes: on
    success the machine writes [Output] with the bytes returned, then [End];
    on a terminal error, [Output] with the failure made of the error's code
    and message, then [End]; on any other error, one [ErrorMessage] with the
    error's code and message, and no [End]. *)
Theorem invoke_handler_returned (ext : Extern) (handler : Handler)
    (input : list Z) (m m' : Machine) (bytes : list Z) (err : option error) :
  handler input m = (Ret (bytes, err), m') ->
  healthy (protocol m') ->
  fst (invoke ext handler input false m) = None /\
  frames (snd (invoke ext handler input false m)) =
    frames m' ++
    match err with
    | None => [OutputEntry_ (Result_Value bytes); End_]
    | Some err =>
        if IsTerminalError err
        then [OutputEntry_ (Result_Failure
                (mkFailure (u32 (ErrorCode err)) (Error err))); End_]
        else [Error_ {| Err_Code := u32 (ErrorCode err);
                        Err_Message := Error err;
                        Err_Description := no_description;
                        Err_RelatedEntryIndex := None;
                        Err_RelatedEntryType := None |}]
    end.
Proof.
  intros Hh Hp. unfold invoke, invoke_body.
  rewrite (bind_returned _ _ m m' _ Hh).
  destruct err as [err |]; [destruct (IsTerminalError err) |].
  - rewrite write_then_End by exact Hp. split; reflexivity.
  - rewrite protocol_Write_healthy by exact Hp. split; reflexivity.
  - rewrite write_then_End by exact Hp. split; reflexivity.
Qed.

(** The premises of [invoke_handler_returned] hold of scenario S1: the
    handler returns bytes. *)
Lemma invoke_handler_returned_witness :
  healthy (protocol idle) /\
  frames (snd (invoke ext0 (fun _ => ret ([49], None)) [104; 105] false idle)) =
    [OutputEntry_ (Result_Value [49]); End_].
Proof.
  split; [exact healthy_idle |].
  apply (invoke_handler_returned ext0 (fun _ => ret ([49], None)) [104; 105]
           idle idle [49] None eq_refl healthy_idle).
Defined.

(** C6. When a suspension escapes the handler: if the outer context is
    cancelled the machine writes nothing; otherwise, if the cause is
    end-of-stream it writes a [SuspensionMessage] with the entry indexes of
    the suspension, and if the cause is another error it writes an
    [ErrorMessage] made from that cause instead. *)
Theorem invoke_suspension (ext : Extern) (handler : Handler)
    (input : list Z) (m m' : Machine) (EntryIndexes : list Z) (cause : error) :
  handler input m = (Panic (SuspensionPanic EntryIndexes cause), m') ->
  fst (invoke ext handler input false m) = None /\
  (ctx m' <> None -> snd (invoke ext handler input false m) = m') /\
  (ctx m' = None -> healthy (protocol m') ->
     frames (snd (invoke ext handler input false m)) =
       frames m' ++
       if Is_io_EOF cause
       then [Suspension_ EntryIndexes]
       else [Error_ {| Err_Code := u32 (ErrorCode cause);
                       Err_Message :=
                         "problem reading completions: " +:+ Error cause;
                       Err_Description := debug_Stack;
                       Err_RelatedEntryIndex := None;
                       Err_RelatedEntryType := None |}]).
Proof.
  intros Hh. rewrite (invoke_panic ext handler input m m' _ Hh).
  cbn [fst snd recovered]. split; [reflexivity |]. split.
  - intros Hc. destruct (ctx m'); [reflexivity | congruence].
  - intros Hc Hp. rewrite Hc.
    destruct (Is_io_EOF cause); apply protocol_Write_frames, Hp.
Qed.

(** The premises of [invoke_suspension] hold when the handler suspends on
    entry 1 at the end of the stream. *)
Lemma invoke_suspension_witness :
  ctx idle = None /\ healthy (protocol idle) /\
  frames (snd (invoke ext0 (fun _ => panic (SuspensionPanic [1] io_EOF)) [] false idle))
    = [Suspension_ [1]].
Proof.
  split; [reflexivity |]. split; [exact healthy_idle |].
  destruct (invoke_suspension ext0 (fun _ => panic (SuspensionPanic [1] io_EOF)) []
              idle idle [1] io_EOF eq_refl) as (_ & _ & Hw).
  apply (Hw eq_refl healthy_idle).
Defined.

(** C10. When the failure of a side effect is recovered at the invocation
    boundary, the [ErrorMessage] written carries the index of the failing
    entry and the code of its error, and its related entry type is that of
    the [Awakeable] entry, not that of the [SideEffect] entry. *)
Theorem invoke_sideEffectFailure (ext : Extern) (handler : Handler)
    (input : list Z) (m m' : Machine) (entryIndex : Z) (err : error) :
  handler input m = (Panic (sideEffectFailure entryIndex err), m') ->
  healthy (protocol m') ->
  exists e : ErrorMessage,
    frames (snd (invoke ext handler input false m)) = frames m' ++ [Error_ e] /\
    Err_RelatedEntryIndex e = Some entryIndex /\
    Err_Code e = u32 (ErrorCode err) /\
    Err_Message e = Error err /\
    Err_RelatedEntryType e = Some AwakeableEntryMessageType /\
    Err_RelatedEntryType e <> Some SideEffectEntryMessageType.
Proof.
  intros Hh Hp. rewrite (invoke_panic ext handler input m m' _ Hh).
  cbn [snd recovered]. eexists. split; [apply protocol_Write_frames, Hp |].
  cbn. repeat split. discriminate.
Qed.

(** The premises of [invoke_sideEffectFailure] hold when the side effect at
    entry 3 fails with a terminal error of code 409. *)
Lemma invoke_sideEffectFailure_witness :
  healthy (protocol idle) /\
  exists e : ErrorMessage,
    frames (snd (invoke ext0
                   (fun _ => panic (sideEffectFailure 3
                                      (mkError "conflict" 409 true false)))
                   [] false idle)) = frames idle ++ [Error_ e] /\
    Err_RelatedEntryIndex e = Some 3 /\
    Err_Code e = u32 409 /\
    Err_Message e = "conflict" /\
    Err_RelatedEntryType e = Some AwakeableEntryMessageType /\
    Err_RelatedEntryType e <> Some SideEffectEntryMessageType.
Proof.
  split; [exact healthy_idle |].
  apply (invoke_sideEffectFailure ext0
           (fun _ => panic (sideEffectFailure 3 (mkError "conflict" 409 true false)))
           [] idle idle 3 (mkError "conflict" 409 true false) eq_refl healthy_idle).
Defined.

(** *** Scenario S3 *)

(** C7, as amended. In scenario S3 the machine writes the call entry and
    then a [SuspensionMessage] whose list of entry indexes is [1]: the cursor
    of a new machine is 0 and the first operation of the handler moves it to
    1, Input being entry 0 of the invocation. *)
Theorem s3_suspension (ext : Extern) (id : list Z) (debugId k : string)
    (input : list Z) :
  fst (Start ext s3_handler None (NewMachine (s3_conn id debugId k input))) = None /\
  frames (snd (Start ext s3_handler None (NewMachine (s3_conn id debugId k input))))
    = [s3_call; Suspension_ [1]].
Proof. vm_compute. split; reflexivity. Qed.

(** C7 as it is stated fails: the list of entry indexes of the suspension
    written in S3 is not [2]. *)
Lemma s3_suspension_counterexample :
  frames (snd (Start ext0 s3_handler None (NewMachine (s3_conn [] "" "" []))))
    <> [s3_call; Suspension_ [2]].
Proof. vm_compute. discriminate. Qed.

End StateFacts.

(* ===================================================================== *)
(** * Part V: more of [internal/rand] *)
(* ===================================================================== *)

Module RandMore.
Import Rand.

Lemma shl64_testbit (x k i : Z) :
  0 <= k -> 0 <= i ->
  Z.testbit (shl64 x k) i =
    if (i <? 64) && (k <=? i) then Z.testbit x (i - k) else false.
Proof.
  intros Hk Hi. unfold shl64, u64.
  destruct (Z.ltb_spec i 64) as [Hlt | Hge]; cbn [andb].
  - rewrite Z.mod_pow2_bits_low by lia. rewrite Z.shiftl_spec by lia.
    destruct (Z.leb_spec k i); [reflexivity |]. apply Z.testbit_neg_r. lia.
  - apply Z.mod_pow2_bits_high. lia.
Qed.

Lemma in_range_testbit_high (x i : Z) :
  0 <= x < 2 ^ 64 -> 64 <= i -> Z.testbit x i = false.
Proof.
  intros Hx Hi. destruct (Z.eq_dec x 0) as [-> | Hne]; [apply Z.bits_0 |].
  apply Z.bits_above_log2; [lia |].
  apply Z.lt_le_trans with 64; [apply Z.log2_lt_pow2; lia | lia].
Qed.

Lemma rotl_inj (x y k : Z) :
  0 <= x < 2 ^ 64 -> 0 <= y < 2 ^ 64 -> 0 < k < 64 ->
  rotl x k = rotl y k -> x = y.
Proof.
  intros Hx Hy Hk Heq. apply Z.bits_inj'. intros i Hi.
  destruct (Z_lt_dec i 64) as [Hlt | Hge].
  - assert (Hj : 0 <= (i + k) mod 64 < 64) by (apply Z.mod_pos_bound; lia).
    assert (Hback : ((i + k) mod 64 - k) mod 64 = i).
    { rewrite Zminus_mod_idemp_l. replace (i + k - k) with i by lia.
      apply Z.mod_small. lia. }
    pose proof (RandFacts.rotl_testbit x k ((i + k) mod 64) Hx Hk Hj) as Ex.
    pose proof (RandFacts.rotl_testbit y k ((i + k) mod 64) Hy Hk Hj) as Ey.
    rewrite Hback in Ex, Ey. rewrite <- Ex, <- Ey, Heq. reflexivity.
  - rewrite !in_range_testbit_high by lia. reflexivity.
Qed.

Lemma lxor_cancel_r (a b c : Z) : Z.lxor a c = Z.lxor b c -> a = b.
Proof.
  intros H. apply (f_equal (fun z => Z.lxor z c)) in H.
  rewrite !Z.lxor_assoc, !Z.lxor_nilpotent, !Z.lxor_0_r in H. exact H.
Qed.

(** X1. [rotl(x, k)] rotates the 64 bits of [x] to the left by [k], for
    [0 < k < 64]: bit [i] of the result is bit [i - k], modulo 64, of [x],
    and no bit is lost. *)
Theorem rotl_is_rotation (x k : Z) :
  0 <= x < 2 ^ 64 -> 0 < k < 64 ->
  0 <= rotl x k < 2 ^ 64 /\
  (forall i, 0 <= i < 64 ->
     Z.testbit (rotl x k) i = Z.testbit x ((i - k) mod 64)) /\
  rotl (rotl x k) (64 - k) = x.
Proof.
  intros Hx Hk. pose proof (RandFacts.rotl_range x k Hx) as Hr.
  split; [exact Hr |]. split.
  - intros i Hi. apply RandFacts.rotl_testbit; assumption.
  - pose proof (RandFacts.rotl_range (rotl x k) (64 - k) Hr) as Hrr.
    apply Z.bits_inj'. intros i Hi.
    destruct (Z_lt_dec i 64) as [Hlt | Hge].
    + rewrite RandFacts.rotl_testbit by lia.
      rewrite RandFacts.rotl_testbit by (try apply Z.mod_pos_bound; lia).
      f_equal. rewrite Zminus_mod_idemp_l.
      replace (i - (64 - k) - k) with (i + (-1) * 64) by lia.
      rewrite Z.mod_add by lia. apply Z.mod_small. lia.
    + rewrite !in_range_testbit_high by lia. reflexivity.
Qed.

Lemma rotl_is_rotation_witness :
  (0 <= 2 ^ 63 + 1 < 2 ^ 64) /\ (0 < 23 < 64) /\
  rotl (rotl (2 ^ 63 + 1) 23) (64 - 23) = 2 ^ 63 + 1.
Proof.
  assert (Hx : 0 <= 2 ^ 63 + 1 < 2 ^ 64) by lia.
  assert (Hk : 0 < 23 < 64) by lia.
  split; [exact Hx |]. split; [exact Hk |].
  exact (proj2 (proj2 (rotl_is_rotation (2 ^ 63 + 1) 23 Hx Hk))).
Defined.

(** X2. On states of four 64-bit words, the state update of [Uint64] is
    injective: two different states never become the same state, so the
    generator does not lose state as it runs. *)
Theorem Uint64_state_injective (s t : Source) :
  in_range s -> in_range t ->
  snd (Uint64 s) = snd (Uint64 t) -> s = t.
Proof.
  intros (Hs0 & Hs1 & Hs2 & Hs3) (Ht0 & Ht1 & Ht2 & Ht3).
  rewrite !RandFacts.Uint64_closed. cbn [snd].
  destruct s as [a0 a1 a2 a3], t as [b0 b1 b2 b3]. cbn [st0 st1 st2 st3] in *.
  intros H. injection H as E0 E1 E2 E3.
  assert (EA : Z.lxor a3 a1 = Z.lxor b3 b1).
  { apply (rotl_inj _ _ 45); try lia; try exact E3;
      apply RandFacts.lxor_range; assumption. }
  rewrite EA in E0. apply lxor_cancel_r in E0. subst b0.
  assert (Hbits : forall i, 0 <= i ->
            Z.testbit a1 i = Z.testbit b1 i /\ Z.testbit a2 i = Z.testbit b2 i).
  { intros i Hi0. revert i Hi0. apply (Z_lt_induction
      (fun i => Z.testbit a1 i = Z.testbit b1 i /\ Z.testbit a2 i = Z.testbit b2 i)).
    intros i IH.
    destruct (Z_lt_dec i 0) as [Hneg | Hi];
      [rewrite !(Z.testbit_neg_r _ i) by lia; split; reflexivity |].
    pose proof (f_equal (fun z => Z.testbit z i) E1) as B1.
    pose proof (f_equal (fun z => Z.testbit z i) E2) as B2.
    cbv beta in B1, B2. rewrite !Z.lxor_spec in B1, B2.
    rewrite !shl64_testbit in B2 by lia.
    destruct ((i <? 64) && (17 <=? i)) eqn:Hc.
    - apply andb_true_iff in Hc as [_ Hc]. apply Z.leb_le in Hc.
      destruct (IH (i - 17) ltac:(lia)) as [IH1 _]. rewrite IH1 in B2.
      destruct (Z.testbit a1 i), (Z.testbit b1 i), (Z.testbit a2 i),
        (Z.testbit b2 i), (Z.testbit a0 i), (Z.testbit b1 (i - 17));
        cbn in *; split; congruence.
    - destruct (Z.testbit a1 i), (Z.testbit b1 i), (Z.testbit a2 i),
        (Z.testbit b2 i), (Z.testbit a0 i); cbn in *; split; congruence. }
  assert (a1 = b1) by (apply Z.bits_inj'; intros i Hi; apply Hbits, Hi).
  assert (a2 = b2) by (apply Z.bits_inj'; intros i Hi; apply Hbits, Hi).
  subst b1 b2. apply lxor_cancel_r in EA. subst b3. reflexivity.
Qed.

Lemma Uint64_state_injective_witness :
  in_range (mkSource 1 2 3 4) /\
  snd (Uint64 (mkSource 1 2 3 4)) = mkSource 7 0 262146 211106232532992 /\
  mkSource 1 2 3 4 = mkSource 1 2 3 4.
Proof.
  assert (H : in_range (mkSource 1 2 3 4)) by (unfold in_range; cbn; lia).
  split; [exact H |]. split; [vm_compute; reflexivity |].
  exact (Uint64_state_injective (mkSource 1 2 3 4) (mkSource 1 2 3 4) H H eq_refl).
Defined.

(** X3. [Int63] returns the low 63 bits of one [Uint64] draw: a value from 0
    to [2^63 - 1], so the conversion to [int64] never yields a negative
    number; the source advances by exactly that one draw. *)
Theorem Int63_range (s : Source) :
  fst (Int63 s) = fst (Uint64 s) mod 2 ^ 63 /\
  0 <= fst (Int63 s) < 2 ^ 63 /\
  snd (Int63 s) = snd (Uint64 s).
Proof.
  unfold Int63. destruct (Uint64 s) as [x s']. cbn [fst snd].
  change (2 ^ 63 - 1) with (Z.ones 63). rewrite Z.land_ones by lia.
  pose proof (Z.mod_pos_bound x (2 ^ 63) ltac:(lia)) as Hr.
  unfold int64. destruct (Z.ltb_spec (x mod 2 ^ 63) (2 ^ 63)); [| lia].
  repeat split; lia.
Qed.

Lemma Float64_bits_mod (x : Z) : Float64_bits x = x mod 2 ^ 53.
Proof.
  unfold Float64_bits, shr64, shl64, u64.
  rewrite Z.shiftl_mul_pow2, Z.shiftr_div_pow2 by lia.
  change (2 ^ 64) with (2 ^ 53 * 2 ^ 11).
  rewrite Z.mul_mod_distr_r by lia. apply Z.div_mul. lia.
Qed.

(** X4. [Float64] returns [n / 2^53], where [n] is the low 53 bits of one
    [Uint64] draw: a number that is at least 0 and below 1; the source
    advances by exactly that one draw. *)
Theorem Float64_unit_interval (s : Source) :
  Qnum (fst (Float64 s)) = fst (Uint64 s) mod 2 ^ 53 /\
  Qden (fst (Float64 s)) = (2 ^ 53)%positive /\
  (0 <= fst (Float64 s))%Q /\ (fst (Float64 s) < 1)%Q /\
  snd (Float64 s) = snd (Uint64 s).
Proof.
  unfold Float64. destruct (Uint64 s) as [x s']. cbn [fst snd Qnum Qden].
  rewrite Float64_bits_mod.
  pose proof (Z.mod_pos_bound x (2 ^ 53) ltac:(lia)) as Hr.
  repeat split.
  - unfold Qle. cbn [Qnum Qden]. lia.
  - unfold Qlt. cbn [Qnum Qden]. change (Z.pos (2 ^ 53)) with (2 ^ 53). lia.
Qed.

(** X21. [UUID] returns sixteen bytes: every element is between 0 and 255,
    whatever the state of the source. *)
Theorem UUID_is_16_bytes (s : Source) :
  length (fst (UUID s)) = 16%nat /\
  Forall is_byte (fst (UUID s)).
Proof.
  unfold UUID.
  destruct (Uint64 s) as [a s1]. destruct (Uint64 s1) as [b s2].
  cbn [fst].
  change (LittleEndian_PutUint64 8 b
            (LittleEndian_PutUint64 0 a (replicate 16 0)))
    with [byte_at a 0; byte_at a 1; byte_at a 2; byte_at a 3;
          byte_at a 4; byte_at a 5; byte_at a 6; byte_at a 7;
          byte_at b 0; byte_at b 1; byte_at b 2; byte_at b 3;
          byte_at b 4; byte_at b 5; byte_at b 6; byte_at b 7].
  cbn [insert list_insert lookup_total list_lookup_total].
  split; [reflexivity |].
  assert (Hb : forall v i, is_byte (byte_at v i)).
  { intros v i. unfold is_byte, byte_at.
    change 255 with (Z.ones 8). rewrite Z.land_ones by lia.
    apply Z.mod_pos_bound. lia. }
  assert (Hm : forall x mask bits,
             is_byte x -> 0 <= mask < 256 -> 0 <= bits < 256 ->
             is_byte (Z.lor (Z.land x mask) bits)).
  { unfold is_byte. intros x mask bits Hx Hmask Hbits.
    assert (Hl : 0 <= Z.land x mask < 2 ^ 8).
    { split; [apply Z.land_nonneg; lia |].
      destruct (Z.eq_dec (Z.land x mask) 0) as [-> | Hne]; [lia |].
      assert (0 <= Z.land x mask) by (apply Z.land_nonneg; lia).
      apply Z.log2_lt_pow2; [lia |].
      eapply Z.le_lt_trans; [apply Z.log2_land; lia |].
      apply Z.min_lt_iff. right.
      destruct (Z.eq_dec mask 0) as [-> | ?]; [cbn; lia |].
      apply Z.log2_lt_pow2; lia. }
    split; [apply Z.lor_nonneg; lia |].
    destruct (Z.eq_dec (Z.lor (Z.land x mask) bits) 0) as [-> | Hne]; [lia |].
    assert (0 <= Z.lor (Z.land x mask) bits) by (apply Z.lor_nonneg; lia).
    change 256 with (2 ^ 8). apply Z.log2_lt_pow2; [lia |].
    rewrite Z.log2_lor by lia. apply Z.max_lub_lt.
    - destruct (Z.eq_dec (Z.land x mask) 0) as [-> | ?]; [cbn; lia |].
      apply Z.log2_lt_pow2; lia.
    - destruct (Z.eq_dec bits 0) as [-> | ?]; [cbn; lia |].
      apply Z.log2_lt_pow2; lia. }
  repeat (apply Forall_cons; split; [first [apply Hb | apply Hm; [apply Hb | lia | lia]] |]).
  apply Forall_nil_2.
Qed.

End RandMore.

(* ===================================================================== *)
(** * Part VI: more of [internal/state] *)
(* ===================================================================== *)

Module StateMore.
Import State.
Local Open Scope op_scope.

(** *** The journal cursor *)

(** X5. A replayed entry of another type poisons the machine: on a machine
    without stored failure, [replayOrNew] that meets an entry whose type is
    not the expected one panics with the journal mismatch of the new cursor
    and the expected type, writes nothing, leaves the journal as it was and
    stores that mismatch, so that every later [replayOrNew], of whatever type
    and with whatever callbacks, raises the same mismatch and leaves the
    machine unchanged. *)
Theorem tag_mismatch_poisons {M : Type} `{EntryMessage M} {O : Type}
    (replay : M -> Op O) (new : Op O) (m : Machine) (entry : Message) :
  failure m = None -> in_bounds m ->
  entries m !! Z.to_nat (entryIndex m) = Some entry ->
  MessageType_of entry <> entry_type M ->
  let p :=
    entryMismatch (entryIndex m + 1) (TypedNil (entry_type M))
      (TypedNil (entry_type M)) in
  let m' := snd (replayOrNew replay new m) in
  fst (replayOrNew replay new m) = Panic p /\
  m' = set_failure (Some p) (set_entryIndex (entryIndex m + 1) m) /\
  failure m' = Some p /\
  frames m' = frames m /\
  entries m' = entries m /\
  (forall (M' : Type) (HM' : EntryMessage M') (O' : Type)
          (replay' : M' -> Op O') (new' : Op O'),
     replayOrNew replay' new' m' = (Panic p, m')).
Proof.
  intros Hf Hb He Hne p m'. subst p m'.
  rewrite (StateFacts.replayOrNew_replay replay new m entry Hf Hb He).
  cbv zeta. rewrite (StateFacts.type_assert_None entry Hne). cbn [fst snd].
  split; [reflexivity |]. split; [reflexivity |]. split; [reflexivity |].
  split; [reflexivity |]. split; [reflexivity |].
  intros M' HM' O' replay' new'. apply StateFacts.replayOrNew_failed. reflexivity.
Qed.

Lemma tag_mismatch_poisons_witness :
  failure replayed_set_state = None /\ in_bounds replayed_set_state /\
  fst (doCall "svc" "" "m" [] replayed_set_state) =
    Panic (entryMismatch 1 (TypedNil CallEntryMessageType)
             (TypedNil CallEntryMessageType)) /\
  failure (snd (doCall "svc" "" "m" [] replayed_set_state)) =
    Some (entryMismatch 1 (TypedNil CallEntryMessageType)
            (TypedNil CallEntryMessageType)).
Proof.
  assert (Hb : in_bounds replayed_set_state) by (unfold in_bounds; cbn; lia).
  split; [reflexivity |]. split; [exact Hb |].
  assert (Hne : MessageType_of (SetStateEntry_ [97] [49])
                <> entry_type CallEntryMessage) by discriminate.
  destruct (tag_mismatch_poisons
              (fun entry : CallEntryMessage =>
                 if negb (String.eqb (Call_ServiceName entry) "svc")
                    || negb (String.eqb (Call_Key entry) "")
                    || negb (String.eqb (Call_HandlerName entry) "m")
                    || negb (bytes_Equal (Call_Parameter entry) [])
                 then
                   fun m =>
                     let '(e, m) :=
                       newEntryMismatch
                         (Ptr (CallEntry_ (mkCall "svc" "m" [] "" None)))
                         (Ptr (CallEntry_ entry)) m in
                     (Panic e, m)
                 else ret entry)
              (_doCall "svc" "" "m" []) replayed_set_state
              (SetStateEntry_ [97] [49]) eq_refl Hb eq_refl Hne)
    as (H1 & _ & H2 & _).
  split; [exact H1 | exact H2].
Defined.

(** X6. The cursor is a [uint32]: at [2^32 - 1] the increment wraps to 0,
    the index expression [entries[entryIndex-1]] is out of range and
    [replayOrNew] panics with a run-time error. No callback runs, nothing is
    written, and this panic is not stored as the machine's failure. *)
Theorem cursor_wraps_around {M : Type} `{EntryMessage M} {O : Type}
    (replay : M -> Op O) (new : Op O) (m : Machine) :
  failure m = None -> entryIndex m = 2 ^ 32 - 1 ->
  Z.of_nat (length (entries m)) < 2 ^ 32 ->
  replayOrNew replay new m =
    (Panic (other_panic "runtime error: index out of range"),
     set_entryIndex 0 m) /\
  failure (snd (replayOrNew replay new m)) = None.
Proof.
  intros Hf Hi Hlen.
  assert (Hrun : replayOrNew replay new m =
                 (Panic (other_panic "runtime error: index out of range"),
                  set_entryIndex 0 m)).
  { unfold replayOrNew. rewrite Hf, Hi.
    change (u32 (2 ^ 32 - 1 + 1)) with 0.
    unfold currentEntry. cbn [entryIndex entries set_entryIndex].
    rewrite StateFacts.u32_small by lia.
    destruct (Z.leb_spec 0 (Z.of_nat (length (entries m)))); [| lia].
    change (Z.to_nat (u32 (0 - 1))) with (Z.to_nat (2 ^ 32 - 1)).
    rewrite (lookup_ge_None_2 (entries m)) by lia. reflexivity. }
  split; [exact Hrun |]. rewrite Hrun. exact Hf.
Qed.

Lemma cursor_wraps_around_witness :
  failure (set_entryIndex (2 ^ 32 - 1) idle) = None /\
  fst (replayOrNew (fun e : CallEntryMessage => ret e) (_doCall "svc" "" "m" [])
         (set_entryIndex (2 ^ 32 - 1) idle)) =
    Panic (other_panic "runtime error: index out of range").
Proof.
  split; [reflexivity |].
  assert (Hlen : Z.of_nat (length (entries (set_entryIndex (2 ^ 32 - 1) idle)))
                 < 2 ^ 32) by (cbn; lia).
  rewrite (proj1 (cursor_wraps_around (fun e : CallEntryMessage => ret e)
                    (_doCall "svc" "" "m" []) (set_entryIndex (2 ^ 32 - 1) idle)
                    eq_refl eq_refl Hlen)).
  reflexivity.
Defined.

(** *** New entries *)

(** The machine after entry [msg] was written as entry [i]. *)
Lemma Machine_Write_ok (msg : Message) (m : Machine) :
  fault (protocol m) (length (frames m)) = None ->
  Machine_Write msg m =
    (Ret tt,
     let m1 :=
       set_protocol
         (mkProtocol (incoming (protocol m)) (read_end (protocol m))
            (written (protocol m) ++ [msg]) (fault (protocol m))) m in
     if completable msg
     then set_pendingCompletions (<[entryIndex m := msg]> (pendingCompletions m)) m1
     else if ackable msg
     then set_pendingAcks (<[entryIndex m := msg]> (pendingAcks m)) m1
     else m1).
Proof.
  intros Hw. unfold Machine_Write, Protocol_Write. unfold frames in Hw.
  rewrite Hw. reflexivity.
Qed.

Lemma Machine_Write_broken (msg : Message) (m : Machine) (err : error) :
  fault (protocol m) (length (frames m)) = Some err ->
  Machine_Write msg m =
    (Panic (writeError (entryIndex m) msg err),
     set_failure (Some (writeError (entryIndex m) msg err)) m).
Proof.
  intros Hw. unfold Machine_Write, Protocol_Write. unfold frames in Hw.
  rewrite Hw. destruct m as [? ? [? ? ? ?] ? ? ? ? ? ? ? ? ? ?]. reflexivity.
Qed.

Lemma doCall_new (service key method : string) (params : list Z) (m : Machine) :
  failure m = None -> in_bounds m ->
  Z.of_nat (length (entries m)) < entryIndex m + 1 ->
  fault (protocol m) (length (frames m)) = None ->
  doCall service key method params m =
    (Ret (mkCall service method params key None, entryIndex m + 1),
     set_pendingCompletions
       (<[entryIndex m + 1 := CallEntry_ (mkCall service method params key None)]>
          (pendingCompletions m))
       (set_protocol
          (mkProtocol (incoming (protocol m)) (read_end (protocol m))
             (written (protocol m) ++
                [CallEntry_ (mkCall service method params key None)])
             (fault (protocol m)))
          (set_entryIndex (entryIndex m + 1) m))).
Proof.
  intros Hf Hb Hlt Hw. unfold doCall.
  rewrite StateFacts.replayOrNew_new by assumption.
  unfold _doCall, bind.
  rewrite Machine_Write_ok by exact Hw. reflexivity.
Qed.

(** X7. Past the replayed journal, on a machine without stored failure,
    [doCall] writes exactly one frame, the call entry with the service,
    handler, key and parameter it was given and no result, returns that
    entry with the new cursor as its index, and registers the entry under
    that index as awaiting its completion. If the transport refuses the
    frame, [doCall] panics with a write error that names the entry and its
    index, nothing is written, and the error is stored as the machine's
    failure. *)
Theorem doCall_writes_new_entry (service key method : string)
    (params : list Z) (m : Machine) :
  failure m = None -> in_bounds m ->
  Z.of_nat (length (entries m)) < entryIndex m + 1 ->
  let i := entryIndex m + 1 in
  let msg := mkCall service method params key None in
  (fault (protocol m) (length (frames m)) = None ->
     fst (doCall service key method params m) = Ret (msg, i) /\
     frames (snd (doCall service key method params m)) =
       frames m ++ [CallEntry_ msg] /\
     pendingCompletions (snd (doCall service key method params m)) =
       <[i := CallEntry_ msg]> (pendingCompletions m) /\
     entryIndex (snd (doCall service key method params m)) = i /\
     failure (snd (doCall service key method params m)) = None) /\
  (forall err : error,
     fault (protocol m) (length (frames m)) = Some err ->
     fst (doCall service key method params m) =
       Panic (writeError i (CallEntry_ msg) err) /\
     frames (snd (doCall service key method params m)) = frames m /\
     failure (snd (doCall service key method params m)) =
       Some (writeError i (CallEntry_ msg) err)).
Proof.
  intros Hf Hb Hlt i msg. split.
  - intros Hw. rewrite doCall_new by assumption. cbn.
    repeat split. exact Hf.
  - intros err Hw. unfold doCall.
    rewrite StateFacts.replayOrNew_new by assumption.
    unfold _doCall, bind. rewrite (Machine_Write_broken _ _ err) by exact Hw.
    cbn. repeat split.
Qed.

Lemma doCall_writes_new_entry_witness :
  failure idle = None /\ in_bounds idle /\
  frames (snd (doCall "svc" "" "m" [123; 125] idle)) = [s3_call].
Proof.
  assert (Hb : in_bounds idle) by (unfold in_bounds; cbn; lia).
  split; [reflexivity |]. split; [exact Hb |].
  assert (Hlt : Z.of_nat (length (entries idle)) < entryIndex idle + 1)
    by (cbn; lia).
  destruct (doCall_writes_new_entry "svc" "" "m" [123; 125] idle eq_refl Hb Hlt)
    as [Hok _].
  exact (proj1 (proj2 (Hok eq_refl))).
Defined.

Lemma sendCall_new (now delay : Z) (service key method : string)
    (body : list Z) (m : Machine) :
  failure m = None -> in_bounds m ->
  Z.of_nat (length (entries m)) < entryIndex m + 1 ->
  fault (protocol m) (length (frames m)) = None ->
  sendCall now service key method body delay m =
    (Ret tt,
     let msg :=
       OneWayCallEntry_
         (mkOneWayCall service method body
            (if delay =? 0 then 0 else u64 ((now + delay) / 1000000)) key) in
     set_pendingAcks (<[entryIndex m + 1 := msg]> (pendingAcks m))
       (set_protocol
          (mkProtocol (incoming (protocol m)) (read_end (protocol m))
             (written (protocol m) ++ [msg]) (fault (protocol m)))
          (set_entryIndex (entryIndex m + 1) m))).
Proof.
  intros Hf Hb Hlt Hw. unfold sendCall, bind.
  rewrite StateFacts.replayOrNew_new by assumption.
  unfold _sendCall. rewrite Machine_Write_ok by exact Hw. reflexivity.
Qed.

(** X8. Past the replayed journal, on a machine without stored failure and
    a transport that accepts the frame, [sendCall] writes exactly one frame,
    the one-way call entry for the service, handler, key and body it was
    given, and registers it as awaiting its acknowledgement. The invoke time
    of the entry is 0 when the delay is 0, whatever the clock, and otherwise
    the clock plus the delay in milliseconds since the epoch. *)
Theorem sendCall_writes_new_entry (now delay : Z) (service key method : string)
    (body : list Z) (m : Machine) :
  failure m = None -> in_bounds m ->
  Z.of_nat (length (entries m)) < entryIndex m + 1 ->
  fault (protocol m) (length (frames m)) = None ->
  let i := entryIndex m + 1 in
  let invokeTime := if delay =? 0 then 0 else u64 ((now + delay) / 1000000) in
  let msg := OneWayCallEntry_ (mkOneWayCall service method body invokeTime key) in
  fst (sendCall now service key method body delay m) = Ret tt /\
  frames (snd (sendCall now service key method body delay m)) = frames m ++ [msg] /\
  pendingAcks (snd (sendCall now service key method body delay m)) =
    <[i := msg]> (pendingAcks m) /\
  entryIndex (snd (sendCall now service key method body delay m)) = i.
Proof.
  intros Hf Hb Hlt Hw i invokeTime msg.
  rewrite sendCall_new by assumption. cbn. repeat split.
Qed.

Lemma sendCall_writes_new_entry_witness :
  failure idle = None /\ in_bounds idle /\
  frames (snd (sendCall 1700000000123456789 "svc" "" "m" [] 0 idle)) =
    [OneWayCallEntry_ (mkOneWayCall "svc" "m" [] 0 "")].
Proof.
  assert (Hb : in_bounds idle) by (unfold in_bounds; cbn; lia).
  split; [reflexivity |]. split; [exact Hb |].
  assert (Hlt : Z.of_nat (length (entries idle)) < entryIndex idle + 1)
    by (cbn; lia).
  exact (proj1 (proj2 (sendCall_writes_new_entry 1700000000123456789 0
                         "svc" "" "m" [] idle eq_refl Hb Hlt eq_refl))).
Defined.

(** *** Sequences of calls *)

Lemma set_entryIndex_twice (a b : Z) (m : Machine) :
  set_entryIndex a (set_entryIndex b m) = set_entryIndex a m.
Proof. reflexivity. Qed.

Lemma set_entryIndex_same (m : Machine) : set_entryIndex (entryIndex m) m = m.
Proof. destruct m; reflexivity. Qed.

(** X9. User code that makes [k] calls one after the other, past the
    replayed journal and on a transport that accepts every frame, gets the
    entry indexes [c + 1], ..., [c + k], where [c] is the cursor before the
    first call, and the machine writes the [k] call entries in the order of
    the calls and nothing else. *)
Theorem new_calls_are_numbered (cs : list (serviceCall * list Z)) :
  forall m : Machine,
    failure m = None -> 0 <= entryIndex m ->
    Z.of_nat (length (entries m)) <= entryIndex m ->
    entryIndex m + Z.of_nat (length cs) < 2 ^ 32 ->
    healthy (protocol m) ->
    fst (doCalls cs m) =
      Ret (imap (fun j c => (entry_of c, entryIndex m + 1 + Z.of_nat j)) cs) /\
    frames (snd (doCalls cs m)) =
      frames m ++ map (fun c => CallEntry_ (entry_of c)) cs /\
    entryIndex (snd (doCalls cs m)) = entryIndex m + Z.of_nat (length cs) /\
    failure (snd (doCalls cs m)) = None.
Proof.
  induction cs as [| [c params] cs IH]; intros m Hf H0 Hlen Hk Hp.
  - cbn. rewrite app_nil_r. repeat split; [lia | exact Hf].
  - cbn [length] in Hk. rewrite Nat2Z.inj_succ in Hk.
    assert (Hb : in_bounds m) by (unfold in_bounds; lia).
    set (m2 :=
           set_pendingCompletions
             (<[entryIndex m + 1 :=
                  CallEntry_ (mkCall (service c) (method c) params (key c) None)]>
                (pendingCompletions m))
             (set_protocol
                (mkProtocol (incoming (protocol m)) (read_end (protocol m))
                   (written (protocol m) ++
                      [CallEntry_ (mkCall (service c) (method c) params (key c) None)])
                   (fault (protocol m)))
                (set_entryIndex (entryIndex m + 1) m))).
    assert (Hrun : doCalls ((c, params) :: cs) m =
                   match doCalls cs m2 with
                   | (Ret rs, m3) =>
                       (Ret ((mkCall (service c) (method c) params (key c) None,
                              entryIndex m + 1) :: rs), m3)
                   | (Panic p, m3) => (Panic p, m3)
                   end).
    { cbn [doCalls]. unfold bind.
      rewrite (doCall_new (service c) (key c) (method c) params m Hf Hb
                 ltac:(lia) (Hp _)).
      fold m2. destruct (doCalls cs m2) as [[rs | p] m3]; reflexivity. }
    rewrite Hrun.
    specialize (IH m2 Hf ltac:(cbn; lia) ltac:(cbn; lia) ltac:(cbn; lia) Hp).
    destruct IH as (IH1 & IH2 & IH3 & IH4).
    destruct (doCalls cs m2) as [[rs | p] m3]; cbn [fst snd] in *;
      [| discriminate IH1].
    injection IH1 as ->. repeat split.
    + cbn [imap]. f_equal. f_equal; [cbn; f_equal; lia |].
      apply imap_ext. intros j x _. cbn. f_equal. lia.
    + rewrite IH2. subst m2. cbn. unfold frames. rewrite <- app_assoc.
      reflexivity.
    + rewrite IH3. subst m2. cbn [length entryIndex set_pendingCompletions
                                   set_protocol set_entryIndex]. lia.
    + exact IH4.
Qed.

Lemma new_calls_are_numbered_witness :
  failure idle = None /\ healthy (protocol idle) /\
  fst (doCalls [(mkServiceCall "a" "" "f", [1]); (mkServiceCall "b" "k" "g", [2])]
         idle) =
    Ret [(mkCall "a" "f" [1] "" None, 1); (mkCall "b" "g" [2] "k" None, 2)].
Proof.
  split; [reflexivity |]. split; [exact StateFacts.healthy_idle |].
  exact (proj1 (new_calls_are_numbered
                  [(mkServiceCall "a" "" "f", [1]); (mkServiceCall "b" "k" "g", [2])]
                  idle eq_refl ltac:(cbn; lia) ltac:(cbn; lia) ltac:(cbn; lia)
                  StateFacts.healthy_idle)).
Defined.

Lemma doCall_replay_same (e : CallEntryMessage) (m : Machine) :
  failure m = None -> in_bounds m ->
  entries m !! Z.to_nat (entryIndex m) = Some (CallEntry_ e) ->
  doCall (Call_ServiceName e) (Call_Key e) (Call_HandlerName e)
    (Call_Parameter e) m =
    (Ret (e, entryIndex m + 1), set_entryIndex (entryIndex m + 1) m).
Proof.
  intros Hf Hb He. unfold doCall.
  rewrite (StateFacts.replayOrNew_replay _ _ m _ Hf Hb He).
  cbn [type_assert CallEntryMessage_entry]. cbv zeta.
  rewrite (proj2 (StateFacts.discriminators_equal _ _ _ _ _ _ _ _))
    by (repeat split).
  reflexivity.
Qed.

(** X10. Replay is faithful for calls: when the journal holds, from the
    cursor on, the entries of [k] calls, user code that makes these same
    calls in the same order gets back exactly the recorded entries, results
    included, with consecutive indexes; the machine writes nothing and only
    its cursor moves, by [k]. *)
Theorem calls_replay_in_order (es : list CallEntryMessage) :
  forall (m : Machine) (pre post : list Message),
    failure m = None ->
    entries m = pre ++ map CallEntry_ es ++ post ->
    entryIndex m = Z.of_nat (length pre) ->
    Z.of_nat (length (entries m)) < 2 ^ 32 ->
    doCalls (map request_of es) m =
      (Ret (imap (fun j e => (e, entryIndex m + 1 + Z.of_nat j)) es),
       set_entryIndex (entryIndex m + Z.of_nat (length es)) m).
Proof.
  induction es as [| e es IH]; intros m pre post Hf Hes Hc Hlen.
  - cbn. rewrite Z.add_0_r, set_entryIndex_same. reflexivity.
  - assert (Hlong : Z.of_nat (length pre) + 1 <= Z.of_nat (length (entries m))).
    { rewrite Hes. rewrite !length_app. cbn [map length]. lia. }
    assert (Hb : in_bounds m) by (unfold in_bounds; lia).
    assert (He : entries m !! Z.to_nat (entryIndex m) = Some (CallEntry_ e)).
    { rewrite Hes, Hc, Nat2Z.id. cbn [map app]. apply list_lookup_middle.
      reflexivity. }
    cbn [map doCalls request_of fst snd service key method].
    unfold bind. rewrite (doCall_replay_same e m Hf Hb He).
    rewrite (IH (set_entryIndex (entryIndex m + 1) m) (pre ++ [CallEntry_ e]) post);
      [| exact Hf
       | cbn [entries set_entryIndex]; rewrite Hes, <- app_assoc; reflexivity
       | cbn [entryIndex set_entryIndex]; rewrite length_app, Hc; cbn; lia
       | exact Hlen].
    cbn [ret entryIndex set_entryIndex imap length]. rewrite set_entryIndex_twice.
    unfold ret. f_equal.
    + f_equal. f_equal; [f_equal; lia |]. apply imap_ext. intros j x _. cbn.
      f_equal. lia.
    + f_equal. lia.
Qed.

Lemma calls_replay_in_order_witness :
  failure replayed_call = None /\
  doCalls [(mkServiceCall "svc" "" "m", [123; 125])] replayed_call =
    (Ret [(mkCall "svc" "m" [123; 125] "" None, 1)], set_entryIndex 1 replayed_call).
Proof.
  split; [reflexivity |].
  exact (calls_replay_in_order [mkCall "svc" "m" [123; 125] "" None]
           replayed_call [] [] eq_refl eq_refl eq_refl ltac:(cbn; lia)).
Defined.

(** *** Reading Start, Input and the journal *)

(** [fmt.Errorf("failed to read entry: %w", err)] *)
Lemma read_entries_short (es : list Message) :
  forall (n : nat) (outputSeen : bool) (m : Machine),
    incoming (protocol m) = es -> (length es < n)%nat ->
    read_entries n outputSeen m =
      (inl (mkError ("failed to read entry: " +:+ Error (read_end (protocol m)))
              (ErrorCode (read_end (protocol m)))
              (IsTerminalError (read_end (protocol m)))
              (Is_io_EOF (read_end (protocol m)))),
       set_entries (entries m ++ es)
         (set_protocol
            (mkProtocol [] (read_end (protocol m)) (written (protocol m))
               (fault (protocol m))) m)).
Proof.
  induction es as [| msg es IH]; intros n outputSeen m Hin Hlt.
  - destruct n as [| n]; [cbn in Hlt; lia |].
    cbn [read_entries]. unfold Protocol_Read. rewrite Hin, app_nil_r.
    destruct m as [? ? [inc re wr fl] ? ? ? ? ? ? ? ? ? ?]. cbn in *.
    subst inc. reflexivity.
  - destruct n as [| n]; [cbn in Hlt; lia |].
    cbn [read_entries]. unfold Protocol_Read. rewrite Hin.
    rewrite (IH n); [| reflexivity | cbn in Hlt; lia].
    destruct m as [? ? [inc re wr fl] ? ? ? ? ? ? ? ? ? ?]. cbn.
    rewrite <- app_assoc. reflexivity.
Qed.

(** X11. When the frame that follows Start is not an Input, [process]
    refuses the invocation: it returns the error of the read if the stream
    has ended and [ErrUnexpectedMessage] otherwise, never calls the handler,
    writes no frame and reads no journal. *)
Theorem process_without_input (ext : Extern) (handler : Handler)
    (start : StartMessage) (m : Machine) :
  (forall value rest, incoming (protocol m) <> InputEntry_ value :: rest) ->
  fst (process ext handler start m) =
    Some (match incoming (protocol m) with
          | [] => read_end (protocol m)
          | _ :: _ => ErrUnexpectedMessage
          end) /\
  frames (snd (process ext handler start m)) = frames m /\
  entries (snd (process ext handler start m)) = entries m /\
  (forall handler' : Handler,
     process ext handler' start m = process ext handler start m).
Proof.
  intros Hno. unfold process, Protocol_Read.
  cbn [protocol set_current].
  destruct m as [? ? [inc re wr fl] ? ? ? ? ? ? ? ? ? ?]. cbn in *.
  destruct inc as [| msg rest]; [repeat split |].
  destruct msg; try (repeat split; fail).
  exfalso. eapply Hno. reflexivity.
Qed.

Lemma process_without_input_witness :
  (forall value rest, incoming (protocol idle) <> InputEntry_ value :: rest) /\
  fst (process ext0 s3_handler (mkStart [] "" 1 [] false "") idle) = Some io_EOF.
Proof.
  assert (H : forall value rest,
             incoming (protocol idle) <> InputEntry_ value :: rest)
    by (intros value rest; discriminate).
  split; [exact H |].
  exact (proj1 (process_without_input ext0 s3_handler
                  (mkStart [] "" 1 [] false "") idle H)).
Defined.

(** X12. When the stream ends before the [KnownEntries - 1] journal entries
    announced by Start were read, [process] returns the error of the read
    wrapped as "failed to read entry", never calls the handler and writes no
    frame. *)
Theorem process_short_journal (ext : Extern) (handler : Handler)
    (start : StartMessage) (m : Machine) (value : list Z) (es : list Message) :
  incoming (protocol m) = InputEntry_ value :: es ->
  Z.of_nat (length es) < u32 (Start_KnownEntries start) - 1 ->
  (exists err : error,
     fst (process ext handler start m) = Some err /\
     Error err = "failed to read entry: " +:+ Error (read_end (protocol m)) /\
     Is_io_EOF err = Is_io_EOF (read_end (protocol m))) /\
  frames (snd (process ext handler start m)) = frames m /\
  (forall handler' : Handler,
     process ext handler' start m = process ext handler start m).
Proof.
  intros Hin Hlt.
  assert (Hrun : forall h : Handler,
             process ext h start m =
               (Some (mkError
                        ("failed to read entry: " +:+ Error (read_end (protocol m)))
                        (ErrorCode (read_end (protocol m)))
                        (IsTerminalError (read_end (protocol m)))
                        (Is_io_EOF (read_end (protocol m)))),
                set_entries es
                  (set_protocol
                     (mkProtocol [] (read_end (protocol m)) (written (protocol m))
                        (fault (protocol m)))
                     (set_current
                        (foldl (fun cur entry => <[entry.1 := entry.2]> cur)
                           (current m) (Start_StateMap start)) m)))).
  { intros h. unfold process. cbn [protocol set_current]. unfold Protocol_Read.
    rewrite Hin.
    rewrite (read_entries_short es); [| reflexivity | lia].
    destruct m as [? ? [inc re wr fl] ? ? ? ? ? ? ? ? ? ?]. reflexivity. }
  rewrite Hrun. cbn [fst snd]. split; [| split].
  - eexists. split; [reflexivity |]. split; reflexivity.
  - reflexivity.
  - intros h'. apply Hrun.
Qed.

Lemma process_short_journal_witness :
  incoming (protocol replayed_output) =
    InputEntry_ [] :: [OutputEntry_ (Result_Value [49])] /\
  frames (snd (process ext0 s3_handler (mkStart [] "" 3 [] false "")
                 replayed_output)) = [].
Proof.
  split; [reflexivity |].
  exact (proj1 (proj2 (process_short_journal ext0 s3_handler
                         (mkStart [] "" 3 [] false "") replayed_output []
                         [OutputEntry_ (Result_Value [49])] eq_refl
                         ltac:(vm_compute; reflexivity)))).
Defined.

Lemma existsb_is_Output_false (es : list Message) :
  Forall (fun msg => is_Output msg = false) es -> existsb is_Output es = false.
Proof.
  induction 1 as [| msg es Hm _ IH]; [reflexivity |].
  cbn [existsb]. rewrite Hm, IH. reflexivity.
Qed.

Lemma process_reads_journal (ext : Extern) (handler : Handler)
    (start : StartMessage) (m : Machine) (value : list Z)
    (es rest : list Message) :
  incoming (protocol m) = InputEntry_ value :: es ++ rest ->
  Z.of_nat (length es) = u32 (Start_KnownEntries start) - 1 ->
  process ext handler start m =
    invoke ext handler value (existsb is_Output es) (replayed start es rest m).
Proof.
  intros Hin HN. unfold process. cbn [protocol set_current].
  unfold Protocol_Read. rewrite Hin. rewrite <- HN, Nat2Z.id.
  rewrite (StateFacts.read_entries_all es rest); [| reflexivity].
  cbn [orb]. destruct m as [? ? [inc re wr fl] ? ? ? ? ? ? ? ? ? ?]. reflexivity.
Qed.

(** X13. When the stream delivers Start, Input and the [KnownEntries - 1]
    journal entries announced, none of them an Output, the result of [Start]
    is that of [invoke] for the handler and Input's value on a machine that
    holds the outer context, the id and key of Start, the journal entries in
    the order they were read, the cursor unmoved, no stored failure if there
    was none, and no frame written yet. *)
Theorem Start_runs_handler (ext : Extern) (handler : Handler)
    (inner : option error) (m : Machine) (start : StartMessage)
    (value : list Z) (es rest : list Message) :
  incoming (protocol m) = Start_ start :: InputEntry_ value :: es ++ rest ->
  Z.of_nat (length es) = u32 (Start_KnownEntries start) - 1 ->
  Forall (fun msg => is_Output msg = false) es ->
  exists m0 : Machine,
    Start ext handler inner m = invoke ext handler value false m0 /\
    ctx m0 = inner /\
    id_ m0 = Start_Id start /\
    key_ m0 = Start_Key start /\
    entries m0 = es /\
    entryIndex m0 = entryIndex m /\
    failure m0 = failure m /\
    frames m0 = frames m.
Proof.
  intros Hin HN Hno.
  exists (replayed start es rest (started start inner m)).
  split; [| repeat split].
  unfold Start, Protocol_Read. rewrite Hin.
  unfold process. cbn [protocol set_current set_protocol set_ctx
                         set_suspensionCtx set_id set_key].
  unfold Protocol_Read. cbn [incoming].
  rewrite <- HN, Nat2Z.id.
  rewrite (StateFacts.read_entries_all es rest); [| reflexivity].
  cbn [orb]. rewrite (existsb_is_Output_false es Hno).
  destruct m as [? ? [inc re wr fl] ? ? ? ? ? ? ? ? ? ?]. reflexivity.
Qed.

Lemma Start_runs_handler_witness :
  let call := CallEntry_ (mkCall "svc" "m" [123; 125] "" None) in
  let conn :=
    mkProtocol [Start_ (mkStart [7] "dbg" 2 [] false "k"); InputEntry_ [104; 105];
                call; Completion_ 1 (Some (Result_Value [49]))]
      io_EOF [] (fun _ => None) in
  (exists m0 : Machine,
     Start ext0 (fun input => ret (input, None)) None (NewMachine conn) =
       invoke ext0 (fun input => ret (input, None)) [104; 105] false m0 /\
     key_ m0 = "k" /\ entries m0 = [call]) /\
  frames (snd (Start ext0 (fun input => ret (input, None)) None (NewMachine conn))) =
    [OutputEntry_ (Result_Value [104; 105]); End_].
Proof.
  intros call conn. split; [| vm_compute; reflexivity].
  assert (Hno : Forall (fun msg => is_Output msg = false) [call])
    by (repeat constructor).
  destruct (Start_runs_handler ext0 (fun input => ret (input, None)) None
              (NewMachine conn)
              (mkStart [7] "dbg" 2 [] false "k") [104; 105] [call]
              [Completion_ 1 (Some (Result_Value [49]))] eq_refl eq_refl Hno)
    as (m0 & H1 & _ & _ & H2 & H3 & _).
  exists m0. split; [exact H1 |]. split; [exact H2 | exact H3].
Defined.

(** X14. When the first frame of the stream is not a Start, [Start] refuses
    the invocation: it returns the error of the read if the stream is empty
    and [ErrUnexpectedMessage] otherwise, never calls the handler, writes no
    frame, and leaves id, key, journal and cursor as they were. *)
Theorem Start_without_start (ext : Extern) (handler : Handler)
    (inner : option error) (m : Machine) :
  (forall start rest, incoming (protocol m) <> Start_ start :: rest) ->
  fst (Start ext handler inner m) =
    Some (match incoming (protocol m) with
          | [] => read_end (protocol m)
          | _ :: _ => ErrUnexpectedMessage
          end) /\
  frames (snd (Start ext handler inner m)) = frames m /\
  id_ (snd (Start ext handler inner m)) = id_ m /\
  key_ (snd (Start ext handler inner m)) = key_ m /\
  entries (snd (Start ext handler inner m)) = entries m /\
  entryIndex (snd (Start ext handler inner m)) = entryIndex m /\
  (forall handler' : Handler,
     Start ext handler' inner m = Start ext handler inner m).
Proof.
  intros Hno. unfold Start, Protocol_Read.
  destruct m as [? ? [inc re wr fl] ? ? ? ? ? ? ? ? ? ?]. cbn in *.
  destruct inc as [| msg rest]; [repeat split |].
  destruct msg; try (repeat split; fail).
  exfalso. eapply Hno. reflexivity.
Qed.

Lemma Start_without_start_witness :
  (forall start rest, incoming (protocol replayed_output) <> Start_ start :: rest) /\
  fst (Start ext0 s3_handler None replayed_output) = Some ErrUnexpectedMessage.
Proof.
  assert (H : forall start rest,
             incoming (protocol replayed_output) <> Start_ start :: rest)
    by (intros start rest; discriminate).
  split; [exact H |].
  exact (proj1 (Start_without_start ext0 s3_handler None replayed_output H)).
Defined.

(** *** The state map of Start *)

Lemma load_state_other (sm : list (list Z * list Z)) :
  forall (cur : gmap (list Z) (list Z)) (k : list Z),
    k ∉ sm.*1 ->
    foldl (fun cur entry => <[fst entry := snd entry]> cur) cur sm !! k = cur !! k.
Proof.
  induction sm as [| [k' v'] sm IH]; intros cur k Hk; [reflexivity |].
  cbn [foldl fst snd]. rewrite fmap_cons in Hk. cbn [fst] in Hk.
  apply not_elem_of_cons in Hk as [Hne Hk].
  rewrite IH by exact Hk. apply lookup_insert_ne. congruence.
Qed.

(** X15. [process] loads the state map of Start into the state store in
    order, before the handler runs: when the stream delivers Input and the
    journal, the handler is invoked on a machine in whose store a key the map
    binds holds the value of its last binding in the map, and a key the map
    does not mention keeps the binding the store had, which is none on a new
    machine. *)
Theorem state_map_is_loaded (ext : Extern) (handler : Handler)
    (start : StartMessage) (m : Machine) (value : list Z)
    (es rest : list Message) :
  incoming (protocol m) = InputEntry_ value :: es ++ rest ->
  Z.of_nat (length es) = u32 (Start_KnownEntries start) - 1 ->
  exists m0 : Machine,
    process ext handler start m =
      invoke ext handler value (existsb is_Output es) m0 /\
    forall k : list Z,
      (k ∉ (Start_StateMap start).*1 -> current m0 !! k = current m !! k) /\
      (forall (sm1 sm2 : list (list Z * list Z)) (v : list Z),
         Start_StateMap start = sm1 ++ (k, v) :: sm2 -> k ∉ sm2.*1 ->
         current m0 !! k = Some v).
Proof.
  intros Hin HN. exists (replayed start es rest m).
  split; [apply process_reads_journal; assumption |].
  intros k. unfold replayed. cbn [current set_entries set_protocol set_current].
  split.
  - intros Hk. apply load_state_other, Hk.
  - intros sm1 sm2 v Hsm Hk. rewrite Hsm, foldl_app. cbn [foldl fst snd].
    rewrite load_state_other by exact Hk. apply lookup_insert_eq.
Qed.

Lemma state_map_is_loaded_witness :
  let start :=
    mkStart [] "" 2 [([120], [1]); ([121], [2]); ([120], [3])] false "" in
  exists m0 : Machine,
    process ext0 s3_handler start replayed_output =
      invoke ext0 s3_handler [] true m0 /\
    current m0 !! [120] = Some [3] /\
    current m0 !! [122] = current replayed_output !! [122].
Proof.
  intros start.
  destruct (state_map_is_loaded ext0 s3_handler start replayed_output []
              [OutputEntry_ (Result_Value [49])] [] eq_refl eq_refl)
    as (m0 & H1 & Hk).
  exists m0. split; [exact H1 |]. split.
  - apply (proj2 (Hk [120]) [([120], [1]); ([121], [2])] [] [3] eq_refl). cbn.
    apply not_elem_of_nil.
  - apply (proj1 (Hk [122])). cbn. rewrite !not_elem_of_cons.
    repeat split; try discriminate. apply not_elem_of_nil.
Defined.

(** *** The invocation boundary *)

Lemma protocol_Write_either (msg : Message) (m : Machine) :
  (exists err, protocol_Write msg m = (Ret (Some err), m) /\
               fault (protocol m) (length (frames m)) = Some err) \/
  (fst (protocol_Write msg m) = Ret None /\
   frames (snd (protocol_Write msg m)) = frames m ++ [msg] /\
   failure (snd (protocol_Write msg m)) = failure m /\
   entryIndex (snd (protocol_Write msg m)) = entryIndex m /\
   entries (snd (protocol_Write msg m)) = entries m).
Proof.
  unfold protocol_Write, Protocol_Write, frames.
  destruct (fault (protocol m) (length (written (protocol m)))) as [err |] eqn:E.
  - left. exists err. split; [| reflexivity].
    destruct m as [? ? [? ? ? ?] ? ? ? ? ? ? ? ? ? ?]. reflexivity.
  - right. repeat split.
Qed.

(** X16. When the handler panics, whatever the value and whatever the
    transport does, [invoke] does not panic and returns no error; it writes
    at most one frame, an [ErrorMessage] or a [SuspensionMessage], hence
    neither [Output] nor [End]; and it leaves the journal, the cursor and the
    stored failure as the handler left them. *)
Theorem invoke_recovers_every_panic (ext : Extern) (handler : Handler)
    (input : list Z) (m m' : Machine) (p : any) :
  handler input m = (Panic p, m') ->
  fst (invoke ext handler input false m) = None /\
  (exists l : list Message,
     frames (snd (invoke ext handler input false m)) = frames m' ++ l /\
     at_most_one l /\ forallb is_Error_or_Suspension l = true) /\
  entries (snd (invoke ext handler input false m)) = entries m' /\
  entryIndex (snd (invoke ext handler input false m)) = entryIndex m' /\
  failure (snd (invoke ext handler input false m)) = failure m'.
Proof.
  intros Hh. rewrite (StateFacts.invoke_panic ext handler input m m' p Hh).
  cbn [fst snd]. split; [reflexivity |].
  assert (Hw : forall msg, is_Error_or_Suspension msg = true ->
            (exists l : list Message,
               frames (snd (protocol_Write msg m')) = frames m' ++ l /\
               at_most_one l /\ forallb is_Error_or_Suspension l = true) /\
            entries (snd (protocol_Write msg m')) = entries m' /\
            entryIndex (snd (protocol_Write msg m')) = entryIndex m' /\
            failure (snd (protocol_Write msg m')) = failure m').
  { intros msg Hmsg.
    destruct (protocol_Write_either msg m') as [(err & -> & _) | (_ & Hf & H1 & H2 & H3)].
    - cbn [snd]. split; [| repeat split].
      exists []. rewrite app_nil_r. repeat split. unfold at_most_one. cbn. lia.
    - split; [| repeat split; assumption].
      exists [msg]. split; [exact Hf |]. split; [unfold at_most_one; cbn; lia |].
      cbn. rewrite Hmsg. reflexivity. }
  destruct p; cbn [recovered]; try (apply Hw; reflexivity).
  destruct (ctx m').
  - cbn [snd]. split; [| repeat split].
    exists []. rewrite app_nil_r. repeat split. unfold at_most_one. cbn. lia.
  - destruct (Is_io_EOF Err); apply Hw; reflexivity.
Qed.

Lemma invoke_recovers_every_panic_witness :
  fst (invoke ext0 (fun _ => panic (other_panic "nil map")) [] false idle) = None /\
  entryIndex (snd (invoke ext0 (fun _ => panic (other_panic "nil map")) [] false
                     idle)) = 0.
Proof.
  destruct (invoke_recovers_every_panic ext0
              (fun _ => panic (other_panic "nil map")) [] idle idle
              (other_panic "nil map") eq_refl) as (H1 & _ & _ & H2 & _).
  split; [exact H1 | exact H2].
Defined.

(** X17. For the panics [invoke] knows no better than to report: a write
    error is reported as an [ErrorMessage] with the protocol-violation code,
    the text of the error, and the index and type of the entry that could not
    be written; any other value as an [ErrorMessage] with code 500, the
    printed value, and no related entry. Nothing else is written. *)
Theorem invoke_reports_panics (ext : Extern) (handler : Handler)
    (input : list Z) (m m' : Machine) :
  healthy (protocol m') ->
  (forall (entryIndex : Z) (entry : Message) (err : error),
     handler input m = (Panic (writeError entryIndex entry err), m') ->
     frames (snd (invoke ext handler input false m)) =
       frames m' ++
       [Error_ {| Err_Code := u32 (ErrProtocolViolation ext);
                  Err_Message := Error err;
                  Err_Description := debug_Stack;
                  Err_RelatedEntryIndex := Some entryIndex;
                  Err_RelatedEntryType := Some (MessageType_of entry) |}]) /\
  (forall text : string,
     handler input m = (Panic (other_panic text), m') ->
     frames (snd (invoke ext handler input false m)) =
       frames m' ++
       [Error_ {| Err_Code := 500;
                  Err_Message := Sprint ext (other_panic text);
                  Err_Description := debug_Stack;
                  Err_RelatedEntryIndex := None;
                  Err_RelatedEntryType := None |}]).
Proof.
  intros Hp. split.
  - intros idx entry err Hh.
    rewrite (StateFacts.invoke_panic ext handler input m m' _ Hh).
    cbn [snd recovered]. apply StateFacts.protocol_Write_frames, Hp.
  - intros text Hh.
    rewrite (StateFacts.invoke_panic ext handler input m m' _ Hh).
    cbn [snd recovered]. apply StateFacts.protocol_Write_frames, Hp.
Qed.

Lemma invoke_reports_panics_witness :
  healthy (protocol idle) /\
  frames (snd (invoke ext0 (fun _ => panic (other_panic "nil map")) [] false idle)) =
    [Error_ {| Err_Code := 500;
               Err_Message := "panic";
               Err_Description := debug_Stack;
               Err_RelatedEntryIndex := None;
               Err_RelatedEntryType := None |}].
Proof.
  split; [exact StateFacts.healthy_idle |].
  exact (proj2 (invoke_reports_panics ext0 (fun _ => panic (other_panic "nil map"))
                  [] idle idle StateFacts.healthy_idle) "nil map" eq_refl).
Defined.

(** X18. When the handler returns and the transport refuses the frame that
    carries the result, be it the [Output] of a success or of a terminal
    error or the [ErrorMessage] of another error, [invoke] returns the error
    of the write, writes nothing, and in particular no [End]. When the
    [Output] is written and the transport refuses [End], [invoke] returns
    that error and [Output] is the only frame written. *)
Theorem invoke_write_refused (ext : Extern) (handler : Handler)
    (input : list Z) (m m' : Machine) (bytes : list Z) (err : option error)
    (werr : error) :
  handler input m = (Ret (bytes, err), m') ->
  (fault (protocol m') (length (frames m')) = Some werr ->
     invoke ext handler input false m = (Some werr, m')) /\
  (fault (protocol m') (length (frames m')) = None ->
   fault (protocol m') (S (length (frames m'))) = Some werr ->
   forall out : Message,
     out = match err with
           | None => OutputEntry_ (Result_Value bytes)
           | Some e => OutputEntry_ (Result_Failure
                         (mkFailure (u32 (ErrorCode e)) (Error e)))
           end ->
     match err with None => True | Some e => IsTerminalError e = true end ->
     fst (invoke ext handler input false m) = Some werr /\
     frames (snd (invoke ext handler input false m)) = frames m' ++ [out]).
Proof.
  intros Hh. split.
  - intros Hw. unfold invoke, invoke_body.
    rewrite (StateFacts.bind_returned _ _ m m' _ Hh).
    assert (Hwr : forall msg, protocol_Write msg m' = (Ret (Some werr), m')).
    { intros msg. unfold protocol_Write, Protocol_Write. unfold frames in Hw.
      rewrite Hw. destruct m' as [? ? [? ? ? ?] ? ? ? ? ? ? ? ? ? ?]. reflexivity. }
    destruct err as [e |]; [destruct (IsTerminalError e) |];
      unfold bind; rewrite ?Hwr; reflexivity.
  - intros Hw1 Hw2 out Hout Hterm. unfold invoke, invoke_body.
    rewrite (StateFacts.bind_returned _ _ m m' _ Hh).
    assert (Hwr : forall msg,
              (e <- protocol_Write msg ;;
               match e with
               | Some e => ret (Some e)
               | None => protocol_Write End_
               end) m' =
              (Ret (Some werr),
               set_protocol
                 (mkProtocol (incoming (protocol m')) (read_end (protocol m'))
                    (written (protocol m') ++ [msg]) (fault (protocol m'))) m')).
    { intros msg. unfold bind, protocol_Write, Protocol_Write.
      unfold frames in Hw1, Hw2. rewrite Hw1.
      cbn [protocol set_protocol written fault]. rewrite length_app.
      cbn [length]. rewrite Nat.add_1_r, Hw2.
      destruct m' as [? ? [? ? ? ?] ? ? ? ? ? ? ? ? ? ?]. reflexivity. }
    destruct err as [e |]; [rewrite Hterm |]; rewrite Hwr; subst out;
      split; reflexivity.
Qed.

Lemma invoke_write_refused_witness :
  let broken := NewMachine (mkProtocol [] io_EOF [] (fun _ => Some io_EOF)) in
  invoke ext0 (fun _ => ret ([49], None)) [] false broken = (Some io_EOF, broken).
Proof.
  intros broken.
  exact (proj1 (invoke_write_refused ext0 (fun _ => ret ([49], None)) [] broken
                  broken [49] None io_EOF eq_refl) eq_refl).
Defined.

(** *** Marshalling *)

(** X19. When the codec cannot marshal the input, [RequestFuture],
    [Request] and [Send] return an error that is marked terminal and leave
    the machine untouched: no journal entry is consumed, the cursor does not
    move and nothing is written. *)
Theorem marshal_failure_is_terminal {A B : Type} (Marshal : A -> list Z + error)
    (Unmarshal : list Z -> B + error) (now delay : Z) (c : serviceCall)
    (input : A) (err : error) (m : Machine) :
  Marshal input = inr err ->
  (exists e : error,
     RequestFuture Marshal c (Some input) m = (Ret (inr e), m) /\
     IsTerminalError e = true) /\
  (exists e : error,
     Request Marshal Unmarshal c (Some input) m = (Ret (inr e), m) /\
     IsTerminalError e = true) /\
  (exists e : error,
     Send Marshal now c input delay m = (Ret (Some e), m) /\
     IsTerminalError e = true).
Proof.
  intros HM. repeat split.
  - eexists. unfold RequestFuture. rewrite HM. split; reflexivity.
  - eexists. unfold Request, bind, RequestFuture. rewrite HM. split; reflexivity.
  - eexists. unfold Send. rewrite HM. split; reflexivity.
Qed.

Lemma marshal_failure_is_terminal_witness :
  exists e : error,
    Send (fun _ : unit => inr (mkError "unsupported" 500 false false)) 0
      (mkServiceCall "svc" "" "m") tt 0 idle = (Ret (Some e), idle) /\
    IsTerminalError e = true.
Proof.
  exact (proj2 (proj2 (marshal_failure_is_terminal (B := unit)
                         (fun _ : unit => inr (mkError "unsupported" 500 false false))
                         (fun _ => inl tt) 0 0 (mkServiceCall "svc" "" "m") tt
                         (mkError "unsupported" 500 false false) idle eq_refl))).
Defined.

(** *** What a call leaves alone *)

Lemma replayOrNew_keeps {M : Type} `{EntryMessage M} {O : Type}
    (R : Machine -> Machine -> Prop) (replay : M -> Op O) (new : Op O) :
  (forall m, R m m) ->
  (forall i m m', R (set_entryIndex i m) m' -> R m m') ->
  (forall m f, R m (set_failure f m)) ->
  (forall e m, R m (snd (replay e m))) ->
  (forall m, R m (snd (new m))) ->
  forall m, R m (snd (replayOrNew replay new m)).
Proof.
  intros Hrefl Hcur Hfail Hreplay Hnew m. unfold replayOrNew.
  destruct (failure m); [apply Hrefl |].
  apply (Hcur (u32 (entryIndex m + 1))).
  set (m1 := set_entryIndex (u32 (entryIndex m + 1)) m). clearbody m1.
  unfold currentEntry.
  destruct (entryIndex m1 <=? u32 (Z.of_nat (length (entries m1)))).
  - destruct (entries m1 !! Z.to_nat (u32 (entryIndex m1 - 1))) as [entry |];
      [| apply Hrefl].
    destruct (type_assert entry) as [e |].
    + specialize (Hreplay e m1).
      destruct (replay e m1) as [[o | p] m2]; exact Hreplay.
    + cbn. apply Hfail.
  - specialize (Hnew m1). destruct (new m1) as [[o | p] m2]; exact Hnew.
Qed.

Lemma Machine_Write_keeps (msg : Message) (m : Machine) :
  entries (snd (Machine_Write msg m)) = entries m /\
  current (snd (Machine_Write msg m)) = current m /\
  (frames (snd (Machine_Write msg m)) = frames m \/
   frames (snd (Machine_Write msg m)) = frames m ++ [msg]).
Proof.
  unfold Machine_Write, Protocol_Write, frames.
  destruct (fault (protocol m) (length (written (protocol m)))).
  - cbn. repeat split. left. reflexivity.
  - destruct (completable msg); [| destruct (ackable msg)]; cbn; repeat split;
      right; reflexivity.
Qed.

(** X20. On every machine and for every argument, [doCall] and [sendCall]
    leave the replayed journal and the state store as they were, and write
    at most one frame: the call entry, or the one-way call entry, of the
    operation. *)
Theorem calls_keep_journal (now delay : Z) (service key method : string)
    (params : list Z) (m : Machine) :
  (entries (snd (doCall service key method params m)) = entries m /\
   current (snd (doCall service key method params m)) = current m /\
   (frames (snd (doCall service key method params m)) = frames m \/
    frames (snd (doCall service key method params m)) =
      frames m ++ [CallEntry_ (mkCall service method params key None)])) /\
  (entries (snd (sendCall now service key method params delay m)) = entries m /\
   current (snd (sendCall now service key method params delay m)) = current m /\
   (frames (snd (sendCall now service key method params delay m)) = frames m \/
    exists invokeTime : Z,
      frames (snd (sendCall now service key method params delay m)) =
        frames m ++
        [OneWayCallEntry_ (mkOneWayCall service method params invokeTime key)])).
Proof.
  split.
  - unfold doCall.
    apply (replayOrNew_keeps
             (fun m m' =>
                entries m' = entries m /\ current m' = current m /\
                (frames m' = frames m \/
                 frames m' =
                   frames m ++ [CallEntry_ (mkCall service method params key None)]))).
    + intros m0. repeat split. left. reflexivity.
    + intros i m0 m' Hr. exact Hr.
    + intros m0 f. repeat split. left. reflexivity.
    + intros e m0.
      destruct (negb (String.eqb (Call_ServiceName e) service)
                || negb (String.eqb (Call_Key e) key)
                || negb (String.eqb (Call_HandlerName e) method)
                || negb (bytes_Equal (Call_Parameter e) params));
        cbn; repeat split; left; reflexivity.
    + intros m0. unfold _doCall, bind.
      pose proof (Machine_Write_keeps
                    (CallEntry_ (mkCall service method params key None)) m0) as Hk.
      destruct (Machine_Write _ m0) as [[[] | p] m2]; exact Hk.
  - unfold sendCall, bind.
    match goal with
    | |- context [replayOrNew ?r ?n m] =>
        pose proof (replayOrNew_keeps
          (fun m m' =>
             entries m' = entries m /\ current m' = current m /\
             (frames m' = frames m \/
              exists invokeTime : Z,
                frames m' =
                  frames m ++
                  [OneWayCallEntry_
                     (mkOneWayCall service method params invokeTime key)]))
          r n) as Hk
    end.
    match type of Hk with
    | ?P1 -> ?P2 -> ?P3 -> ?P4 -> ?P5 -> _ =>
        assert (H1 : P1) by (intros m0; repeat split; left; reflexivity);
        assert (H2 : P2) by (intros i m0 m' Hr; exact Hr);
        assert (H3 : P3) by (intros m0 f; repeat split; left; reflexivity);
        assert (H4 : P4);
        [| assert (H5 : P5)]
    end.
    + intros e m0.
      destruct (negb (String.eqb (OneWay_ServiceName e) service)
                || negb (String.eqb (OneWay_Key e) key)
                || negb (String.eqb (OneWay_HandlerName e) method)
                || negb (bytes_Equal (OneWay_Parameter e) params));
        cbn; repeat split; left; reflexivity.
    + intros m0. unfold _sendCall.
      destruct (Machine_Write_keeps
                  (OneWayCallEntry_
                     (mkOneWayCall service method params
                        (if delay =? 0 then 0 else u64 ((now + delay) / 1000000))
                        key)) m0) as (E1 & E2 & [E3 | E3]).
      * repeat split; try assumption. left. exact E3.
      * repeat split; try assumption. right. eexists. exact E3.
    + specialize (Hk H1 H2 H3 H4 H5 m).
      destruct (replayOrNew _ _ m) as [[[[] i] | p] m2]; exact Hk.
Qed.

End StateMore.
